(** * ModernURL: syncing a UI state with the browser address bar

    A shallow embedding of [src/lib/storage/modern.js].  The class keeps a
    search state in the query string of the page address: [write] pushes a
    history entry after a quiet period, [read] parses the current query
    string, [onUpdate] listens to [popstate] and [dispose] cleans up.

    The browser (location, history, timers, event listeners, document title)
    is modelled as an explicit [Window] record that every operation threads;
    the [qs] package is an interface ([QueryString]) the development is
    parametric in. *)

From Stdlib Require Import Bool List ZArith Lia Ascii String DecimalString.
Import ListNotations.

Local Open Scope string_scope.
Local Open Scope Z_scope.

Set Warnings "-register-all".

(** ** JavaScript values *)

(** The values a UI state is made of.  Numbers are integers here; an object
    is the list of its own enumerable properties in insertion order. *)
Inductive JsValue : Type :=
| JUndefined
| JNull
| JBool (b : bool)
| JNum (z : Z)
| JStr (s : string)
| JArr (items : list JsValue)
| JObj (fields : list (string * JsValue)).

(** Exceptions a call can complete with. *)
Inductive JsError : Type :=
| TypeError.

Inductive Completion (A : Type) : Type :=
| Normal (a : A)
| Throw (e : JsError).

Arguments Normal {A} a.
Arguments Throw {A} e.

Definition bind {A B : Type} (c : Completion A) (k : A -> Completion B)
  : Completion B :=
  match c with
  | Normal a => k a
  | Throw e => Throw e
  end.

Notation "x <- c ;; k" := (bind c (fun x => k))
  (at level 61, c at next level, right associativity).

(** [ToBoolean]: what [!v] and [if (v)] look at. *)
Definition truthy (v : JsValue) : bool :=
  match v with
  | JUndefined | JNull => false
  | JBool b => b
  | JNum z => negb (z =? 0)
  | JStr s => negb (s =? "")%string
  | JArr _ | JObj _ => true
  end.

Definition index_keys (n : nat) : list string :=
  map (fun i => NilZero.string_of_uint (Nat.to_uint i)) (seq 0 n).

(** [Object.keys]: throws on [undefined] and [null], lists the indices of
    arrays and strings, and nothing for the other primitives. *)
Definition object_keys (v : JsValue) : Completion (list string) :=
  match v with
  | JUndefined | JNull => Throw TypeError
  | JBool _ | JNum _ => Normal []
  | JStr s => Normal (index_keys (String.length s))
  | JArr items => Normal (index_keys (List.length items))
  | JObj fields => Normal (map fst fields)
  end.

(** ** Strings *)

(** [s.slice(n)] for a non-negative [n]. *)
Fixpoint slice (n : nat) (s : string) : string :=
  match n, s with
  | O, _ => s
  | S _, EmptyString => EmptyString
  | S n', String _ s' => slice n' s'
  end.

Fixpoint occurs (c : ascii) (s : string) : bool :=
  match s with
  | EmptyString => false
  | String a s' => Ascii.eqb a c || occurs c s'
  end.

Definition starts_with (c : ascii) (s : string) : bool :=
  match s with
  | EmptyString => false
  | String a _ => Ascii.eqb a c
  end.

(** Splits [s] in front of the first [c]; the second part is empty when
    there is none. *)
Fixpoint break_at (c : ascii) (s : string) : string * string :=
  match s with
  | EmptyString => (EmptyString, EmptyString)
  | String a s' =>
      if Ascii.eqb a c then (EmptyString, s)
      else let (l, r) := break_at c s' in (String a l, r)
  end.

(** ** The address of the page *)

(** [window.location], by the components the code reads. *)
Record Location : Type := mkLocation {
  protocol : string;
  hostname : string;
  port : string;
  pathname : string;
  search : string;
  hash : string
}.

(** How the browser takes an absolute address apart: the fragment starts at
    the first [#], the query at the first [?] in front of it, the scheme ends
    at the first [:], and the authority runs up to the path.  An empty query
    or fragment reads as the empty string. *)
Definition parse_url (url : string) : Location :=
  let (beforeHash, fragment) := break_at "#" url in
  let (beforeQuery, query) := break_at "?" beforeHash in
  let (scheme, afterScheme) := break_at ":" beforeQuery in
  let (authority, path) := break_at "/" (slice 3 afterScheme) in
  let (host, portPart) := break_at ":" authority in
  {| protocol := scheme ++ ":";
     hostname := host;
     port := slice 1 portPart;
     pathname := path;
     search := if (query =? "?")%string then "" else query;
     hash := if (fragment =? "#")%string then "" else fragment |}.

Definition no_delimiter (s : string) : bool :=
  negb (occurs "/" s) && negb (occurs "?" s) && negb (occurs "#" s).

(** The shape of a location the browser hands out for a hierarchical
    address: no component reaches into the next one. *)
Definition wf_location (loc : Location) : bool :=
  (let (scheme, colon) := break_at ":" (protocol loc) in
   (colon =? ":")%string && no_delimiter scheme)
  && no_delimiter (hostname loc) && negb (occurs ":" (hostname loc))
  && no_delimiter (port loc)
  && (starts_with "/" (pathname loc) || (pathname loc =? "")%string)
  && negb (occurs "?" (pathname loc)) && negb (occurs "#" (pathname loc))
  && (starts_with "?" (search loc) || (search loc =? "")%string)
  && negb (search loc =? "?")%string && negb (occurs "#" (search loc))
  && (starts_with "#" (hash loc) || (hash loc =? "")%string)
  && negb (hash loc =? "#")%string.

(** The address up to the path, as the template literals of [createURL]
    spell it. *)
Definition origin_path (loc : Location) : string :=
  protocol loc ++ "//" ++ hostname loc
  ++ (if (port loc =? "")%string then "" else ":" ++ port loc)
  ++ pathname loc.

Definition with_search (q : string) (loc : Location) : Location :=
  mkLocation (protocol loc) (hostname loc) (port loc) (pathname loc) q
    (hash loc).

(** ** The [qs] package *)

(** [qs.stringify] and [qs.parse], the two functions the class imports. *)
Class QueryString : Type := {
  qs_stringify : JsValue -> string;
  qs_parse : string -> JsValue
}.

Section Storage.

Context {QS : QueryString}.

(** [createURL(uiState)] on the current location. *)
Definition createURL (loc : Location) (uiState : JsValue) : Completion string :=
  let queryString := qs_stringify uiState in
  let portWithPrefix :=
    if (port loc =? "")%string then "" else ":" ++ port loc in
  empty <- (if negb (truthy uiState) then Normal true
            else keys <- object_keys uiState ;;
                 Normal (Nat.eqb (List.length keys) 0)) ;;
  if (empty : bool)
  then Normal (protocol loc ++ "//" ++ hostname loc ++ portWithPrefix
               ++ pathname loc ++ hash loc)
  else Normal (protocol loc ++ "//" ++ hostname loc ++ portWithPrefix
               ++ pathname loc ++ "?" ++ queryString ++ hash loc).

(** [read()]: the query string of the current address without its [?]. *)
Definition read_location (loc : Location) : JsValue :=
  qs_parse (slice 1 (search loc)).

(** ** The browser *)

(** One call of [history.pushState]. *)
Record PushedEntry : Type := mkEntry {
  entry_state : JsValue;
  entry_title : string;
  entry_url : string
}.

(** The arrow function [write] hands to [setTimeout], by the variables it
    closes over; [task_title] is [None] for [undefined]. *)
Record WriteTask : Type := mkTask {
  task_title : option string;
  task_state : JsValue;
  task_url : string
}.

Record Timer : Type := mkTimer {
  timer_id : Z;
  timer_due : Z;
  timer_task : WriteTask
}.

(** The arrow function [onUpdate] installs: a function object of its own,
    closing over the callback [cb].  The model knows [cb] by a name and
    records its calls in [delivered]; what [cb] does is not part of the
    class. *)
Record Listener : Type := mkListener {
  listener_id : nat;
  listener_cb : nat
}.

Record Window : Type := mkWindow {
  location : Location;
  title_writes : list string;
  pushed : list PushedEntry;
  timers : list Timer;
  next_timer : Z;
  clock : Z;
  listeners : list Listener;
  next_listener : nat;
  delivered : list (nat * JsValue)
}.

Definition set_location (loc : Location) (w : Window) : Window :=
  mkWindow loc (title_writes w) (pushed w) (timers w) (next_timer w)
    (clock w) (listeners w) (next_listener w) (delivered w).

Definition set_timers (ts : list Timer) (w : Window) : Window :=
  mkWindow (location w) (title_writes w) (pushed w) ts (next_timer w)
    (clock w) (listeners w) (next_listener w) (delivered w).

Definition set_clock (t : Z) (w : Window) : Window :=
  mkWindow (location w) (title_writes w) (pushed w) (timers w) (next_timer w)
    t (listeners w) (next_listener w) (delivered w).

Definition set_listeners (ls : list Listener) (w : Window) : Window :=
  mkWindow (location w) (title_writes w) (pushed w) (timers w) (next_timer w)
    (clock w) ls (next_listener w) (delivered w).

(** [document.title = t]; the title of the page is the last one written. *)
Definition set_title (t : string) (w : Window) : Window :=
  mkWindow (location w) (title_writes w ++ [t]) (pushed w) (timers w)
    (next_timer w) (clock w) (listeners w) (next_listener w) (delivered w).

(** [history.pushState(state, title, url)]: a new entry, and the page is at
    [url] from then on. *)
Definition pushState (state : JsValue) (title url : string) (w : Window)
  : Window :=
  mkWindow (parse_url url) (title_writes w)
    (pushed w ++ [mkEntry state title url]) (timers w) (next_timer w)
    (clock w) (listeners w) (next_listener w) (delivered w).

(** [setTimeout(task, delay)]: the handle is a fresh positive integer, a
    negative delay counts as none. *)
Definition setTimeout (task : WriteTask) (delay : Z) (w : Window)
  : Z * Window :=
  (next_timer w,
   mkWindow (location w) (title_writes w) (pushed w)
     (timers w ++ [mkTimer (next_timer w) (clock w + Z.max 0 delay) task])
     (next_timer w + 1) (clock w) (listeners w) (next_listener w)
     (delivered w)).

Definition clearTimeout (id : Z) (w : Window) : Window :=
  set_timers (filter (fun t => negb (timer_id t =? id)) (timers w)) w.

Definition addEventListener (l : Listener) (w : Window) : Window :=
  mkWindow (location w) (title_writes w) (pushed w) (timers w) (next_timer w)
    (clock w) (listeners w ++ [l]) (S (next_listener w)) (delivered w).

(** [removeEventListener('popstate', f)]; nothing happens for [undefined]. *)
Definition removeEventListener (f : option Listener) (w : Window) : Window :=
  match f with
  | None => w
  | Some l =>
      set_listeners
        (filter (fun l' => negb (Nat.eqb (listener_id l') (listener_id l)))
           (listeners w)) w
  end.

(** A call [cb(v)] of the callback named [cb]. *)
Definition call (cb : nat) (v : JsValue) (w : Window) : Window :=
  mkWindow (location w) (title_writes w) (pushed w) (timers w) (next_timer w)
    (clock w) (listeners w) (next_listener w) (delivered w ++ [(cb, v)]).

(** ** The class *)

(** The fields of an instance.  [titleFromUIState] is [None] when the option
    is not given; when it is, it is a function of the caller that returns a
    string or throws, as a function that reads its argument does on
    [undefined].  [writeTimer] is [None] for [undefined]. *)
Record ModernURL : Type := mkModernURL {
  titleFromUIState : option (JsValue -> Completion string);
  writeTimer : option Z;
  writeTimeout : Z;
  _onPopState : option Listener
}.

(** [new ModernURL({ titleFromUIState, writeTimeout = 400 })]. *)
Definition constructor
  (titleFromUIState : option (JsValue -> Completion string))
  (writeTimeout : option Z) : ModernURL :=
  mkModernURL titleFromUIState None
    (match writeTimeout with Some t => t | None => 400 end) None.

Definition set_writeTimer (t : option Z) (m : ModernURL) : ModernURL :=
  mkModernURL (titleFromUIState m) t (writeTimeout m) (_onPopState m).

(** The page and the one instance living in it. *)
Record State : Type := mkState {
  window : Window;
  this : ModernURL
}.

(** [if (this.writeTimer) window.clearTimeout(this.writeTimer)]. *)
Definition clear_pending (s : State) : Window :=
  match writeTimer (this s) with
  | Some id => if negb (id =? 0) then clearTimeout id (window s) else window s
  | None => window s
  end.

(** [if (title)] and [title || ''] on a title that is a string or
    [undefined]. *)
Definition has_title (title : option string) : bool :=
  match title with
  | Some t => negb (t =? "")%string
  | None => false
  end.

Definition title_or_empty (title : option string) : string :=
  match title with
  | Some t => t
  | None => ""
  end.

(** [this.titleFromUIState && this.titleFromUIState(uiState)]: [undefined]
    without a title function, else what the function returns, or its
    exception. *)
Definition title_of (m : ModernURL) (uiState : JsValue)
  : Completion (option string) :=
  match titleFromUIState m with
  | Some f => t <- f uiState ;; Normal (Some t)
  | None => Normal None
  end.

(** What a method leaves: the state of the page, and the exception when the
    call threw.  An exception ends the call where it is thrown; the page
    stays as the call had made it by then. *)
Definition Outcome : Type := (State * option JsError)%type.

(** [write(uiState)]: the address and the title are computed first, and an
    exception there leaves the timer as it was. *)
Definition write (uiState : JsValue) (s : State) : Outcome :=
  match createURL (location (window s)) uiState with
  | Throw e => (s, Some e)
  | Normal url =>
      match title_of (this s) uiState with
      | Throw e => (s, Some e)
      | Normal title =>
          let (id, w) :=
            setTimeout (mkTask title uiState url) (writeTimeout (this s))
              (clear_pending s) in
          (mkState w (set_writeTimer (Some id) (this s)), None)
      end
  end.

(** The body of the function [write] schedules. *)
Definition run_task (task : WriteTask) (s : State) : State :=
  let w :=
    if has_title (task_title task)
    then set_title (title_or_empty (task_title task)) (window s)
    else window s in
  mkState
    (pushState (task_state task) (title_or_empty (task_title task))
       (task_url task) w)
    (set_writeTimer None (this s)).

(** [read()]. *)
Definition read (s : State) : JsValue :=
  read_location (location (window s)).

(** [if (this.writeTimer) { window.clearTimeout(this.writeTimer);
    this.writeTimer = undefined; }]. *)
Definition cancel_pending (s : State) : State :=
  match writeTimer (this s) with
  | Some id =>
      if negb (id =? 0)
      then mkState (clearTimeout id (window s)) (set_writeTimer None (this s))
      else s
  | None => s
  end.

(** The function [onUpdate] stores in [this._onPopState], run on an event
    whose [state] is [event_state]. *)
Definition on_pop_state (l : Listener) (event_state : JsValue) (s : State)
  : State :=
  let s1 := cancel_pending s in
  let uiState := event_state in
  if negb (truthy uiState)
  then mkState (call (listener_cb l) (read s1) (window s1)) (this s1)
  else mkState (call (listener_cb l) uiState (window s1)) (this s1).

(** [onUpdate(cb)]. *)
Definition onUpdate (cb : nat) (s : State) : State :=
  let l := mkListener (next_listener (window s)) cb in
  mkState (addEventListener l (window s))
    (mkModernURL (titleFromUIState (this s)) (writeTimer (this s))
       (writeTimeout (this s)) (Some l)).

(** [dispose()]: the listener is taken off and the timer cleared before
    [write()] is called, so they are when [write()] throws. *)
Definition dispose (s : State) : Outcome :=
  let s1 := mkState (removeEventListener (_onPopState (this s)) (window s))
              (this s) in
  write JUndefined (mkState (clear_pending s1) (this s1)).

(** ** The event loop *)

(** The listeners [ls] run in turn on an event whose [state] is
    [event_state]. *)
Definition pop_all (event_state : JsValue) (ls : list Listener) (s : State)
  : State :=
  fold_left (fun s' l => on_pop_state l event_state s') ls s.

(** The browser fires [popstate]: every listener registered at that moment
    runs, in the order of registration. *)
Definition popstate (event_state : JsValue) (s : State) : State :=
  pop_all event_state (listeners (window s)) s.

Fixpoint insert_by_due (t : Timer) (ts : list Timer) : list Timer :=
  match ts with
  | [] => [t]
  | u :: ts' =>
      if timer_due t <=? timer_due u then t :: ts
      else u :: insert_by_due t ts'
  end.

Definition sort_by_due (ts : list Timer) : list Timer :=
  fold_right insert_by_due [] ts.

(** [d] milliseconds go by: the timers that come due leave the table and
    run, the earliest first. *)
Definition elapse (d : Z) (s : State) : State :=
  let deadline := clock (window s) + Z.max 0 d in
  let due := filter (fun t => timer_due t <=? deadline) (timers (window s)) in
  let rest :=
    filter (fun t => negb (timer_due t <=? deadline)) (timers (window s)) in
  fold_left (fun s' t => run_task (timer_task t) s') (sort_by_due due)
    (mkState (set_clock deadline (set_timers rest (window s))) (this s)).

(** What can happen to the page: calls of the four methods, a navigation
    to [url] whose event carries [event_state], and time going by. *)
Inductive Op : Type :=
| OpWrite (uiState : JsValue)
| OpOnUpdate (cb : nat)
| OpDispose
| OpPopState (url : string) (event_state : JsValue)
| OpElapse (d : Z).

Definition step (op : Op) (s : State) : Outcome :=
  match op with
  | OpWrite uiState => write uiState s
  | OpOnUpdate cb => (onUpdate cb s, None)
  | OpDispose => dispose s
  | OpPopState url event_state =>
      (popstate event_state
         (mkState (set_location (parse_url url) (window s)) (this s)), None)
  | OpElapse d => (elapse d s, None)
  end.

Definition first_error (e1 e2 : option JsError) : option JsError :=
  match e1 with
  | Some e => Some e
  | None => e2
  end.

(** A sequence of calls and events.  The page goes on after a call that
    threw: what follows finds it as the exception left it.  The outcome is
    the state at the end and the first exception, if there was one. *)
Fixpoint run (ops : list Op) (s : State) : Outcome :=
  match ops with
  | [] => (s, None)
  | op :: ops' =>
      let (s1, e1) := step op s in
      let (s2, e2) := run ops' s1 in
      (s2, first_error e1 e2)
  end.

(** A page that has just loaded at [loc], and a fresh instance. *)
Definition fresh_window (loc : Location) : Window :=
  mkWindow loc [] [] [] 1 0 [] 0 [].

Definition initial
  (titleFromUIState : option (JsValue -> Completion string))
  (writeTimeout : option Z) (loc : Location) : State :=
  mkState (fresh_window loc) (constructor titleFromUIState writeTimeout).

End Storage.

(** ** The vocabulary of the specification *)

(** The UI states the serialization has to carry: mappings whose values are
    strings, numbers, arrays and mappings of such. *)
Fixpoint supported_value (v : JsValue) : bool :=
  match v with
  | JStr _ | JNum _ => true
  | JArr items => forallb supported_value items
  | JObj fields => forallb (fun kv => supported_value (snd kv)) fields
  | JUndefined | JNull | JBool _ => false
  end.

Definition supported (s : JsValue) : bool :=
  match s with
  | JObj fields => forallb (fun kv => supported_value (snd kv)) fields
  | _ => false
  end.

(** A mapping without keys. *)
Definition empty_mapping : JsValue := JObj [].

(** Modelled from the spec: the [qs] package, whose [stringify] and [parse]
    the class calls, is not part of the sources.  These are the properties
    the spec asks of the serialization (sections 4.1, 6 and 7): [parse]
    undoes [stringify] on the supported states, a serialization is URL-safe
    (it never contains the fragment sign), and a query that is empty or that
    no value serializes to parses to the empty mapping. *)
Class QueryStringLaws (QS : QueryString) : Prop := {
  parse_stringify :
    forall s, supported s = true -> qs_parse (qs_stringify s) = s;
  stringify_url_safe :
    forall v, occurs "#" (qs_stringify v) = false;
  parse_empty :
    qs_parse "" = empty_mapping;
  parse_unparseable :
    forall q, (forall v, qs_stringify v <> q) -> qs_parse q = empty_mapping
}.

(** The pending write: every timer of the table is the one [writeTimer]
    names, handles are positive, and the table holds one timer at most. *)
Record Inv (s : State) : Prop := mkInv {
  inv_next : 0 < next_timer (window s);
  inv_tracked :
    forall t, In t (timers (window s)) ->
      writeTimer (this s) = Some (timer_id t)
      /\ 0 < timer_id t < next_timer (window s);
  inv_single : (List.length (timers (window s)) <= 1)%nat
}.

(** [onUpdate] has been called once at most, and its listener is the one
    registered. *)
Definition registered_once (s : State) : Prop :=
  listeners (window s) =
  match _onPopState (this s) with
  | Some l => [l]
  | None => []
  end.

(** Events of the page, as opposed to calls of the methods. *)
Definition is_event (op : Op) : bool :=
  match op with
  | OpPopState _ _ | OpElapse _ => true
  | OpWrite _ | OpOnUpdate _ | OpDispose => false
  end.

Definition is_registration (op : Op) : bool :=
  match op with
  | OpOnUpdate _ => true
  | _ => false
  end.

(** The guard of [createURL]: a state that is falsy or has no keys. *)
Definition is_empty_state (uiState : JsValue) : bool :=
  negb (truthy uiState)
  || match object_keys uiState with
     | Normal keys => Nat.eqb (List.length keys) 0
     | Throw _ => false
     end.

(** The title function, if there is one, returns on [uiState]. *)
Definition title_returns (m : ModernURL) (uiState : JsValue) : bool :=
  match title_of m uiState with
  | Normal _ => true
  | Throw _ => false
  end.

(** The calls that return: [write] and [dispose] throw when the title
    function does, on the state written and on [undefined]. *)
Definition completes (op : Op) (s : State) : bool :=
  match op with
  | OpWrite uiState => title_returns (this s) uiState
  | OpDispose => title_returns (this s) JUndefined
  | OpOnUpdate _ | OpPopState _ _ | OpElapse _ => true
  end.

(** The timer a call [write(uiState)] in state [s] leaves pending, and the
    entry it pushes when it fires. *)
Definition pending_write {QS : QueryString} (uiState : JsValue) (s : State)
  : Completion Timer :=
  url <- createURL (location (window s)) uiState ;;
  title <- title_of (this s) uiState ;;
  Normal (mkTimer (next_timer (window s))
            (clock (window s) + Z.max 0 (writeTimeout (this s)))
            (mkTask title uiState url)).

Definition entry_of {QS : QueryString} (uiState : JsValue) (s : State)
  : Completion PushedEntry :=
  url <- createURL (location (window s)) uiState ;;
  title <- title_of (this s) uiState ;;
  Normal (mkEntry uiState (title_or_empty title) url).

(** Nothing was pushed and nothing configured anew between [s] and [s']. *)
Definition same_page (s s' : State) : Prop :=
  location (window s') = location (window s)
  /\ title_writes (window s') = title_writes (window s)
  /\ pushed (window s') = pushed (window s)
  /\ listeners (window s') = listeners (window s)
  /\ delivered (window s') = delivered (window s)
  /\ titleFromUIState (this s') = titleFromUIState (this s)
  /\ writeTimeout (this s') = writeTimeout (this s).

(** A burst of calls of [write]: each comes [d] milliseconds after the one
    before it. *)
Fixpoint burst (ws : list (Z * JsValue)) : list Op :=
  match ws with
  | [] => []
  | (d, uiState) :: ws' => OpElapse d :: OpWrite uiState :: burst ws'
  end.

(** ** Further vocabulary *)

(** A value [Object.keys] finds no key in, or that is falsy: [undefined],
    [null], a boolean, a number, the empty string, the empty array and the
    mapping without keys. *)
Definition keyless (v : JsValue) : bool :=
  match v with
  | JUndefined | JNull | JBool _ | JNum _ => true
  | JStr s => (s =? "")%string
  | JArr items => match items with [] => true | _ :: _ => false end
  | JObj fields => match fields with [] => true | _ :: _ => false end
  end.

(** Two addresses that differ in their query at most. *)
Definition same_origin (loc loc' : Location) : Prop :=
  protocol loc' = protocol loc
  /\ hostname loc' = hostname loc
  /\ port loc' = port loc
  /\ pathname loc' = pathname loc
  /\ hash loc' = hash loc.

(** What is pending was scheduled at the address the page is at. *)
Definition pending_here {QS : QueryString} (s : State) : Prop :=
  forall t, In t (timers (window s)) ->
    exists uiState,
      createURL (location (window s)) uiState
      = Normal (task_url (timer_task t)).

Definition is_navigation (op : Op) : bool :=
  match op with
  | OpPopState _ _ => true
  | _ => false
  end.

(** The calls of a trace that schedule a write: [write] and [dispose]. *)
Definition schedules (op : Op) : bool :=
  match op with
  | OpWrite _ | OpDispose => true
  | OpOnUpdate _ | OpPopState _ _ | OpElapse _ => false
  end.

Definition count_scheduling (ops : list Op) : nat :=
  List.length (filter schedules ops).

(** What a listener hands to its callback on an event at [url]. *)
Definition event_value {QS : QueryString} (url : string) (ev : JsValue)
  : JsValue :=
  if truthy ev then ev else read_location (parse_url url).

(** ** A reference serialization *)

(** One serialization with the properties of [QueryStringLaws]: it shows
    that they can be met together, and the theorems are instantiated with
    it.  A value is written in prefix form over the alphabet [a-z0-9.]. *)
Module RefCodec.

Fixpoint enc_pos (p : positive) : string :=
  match p with
  | xH => "."
  | xO p' => String "0" (enc_pos p')
  | xI p' => String "1" (enc_pos p')
  end.

Definition enc_num (z : Z) : string :=
  match z with
  | Z0 => "z"
  | Zpos p => String "p" (enc_pos p)
  | Zneg p => String "m" (enc_pos p)
  end.

Definition hex_digit (b0 b1 b2 b3 : bool) : ascii :=
  match b3, b2, b1, b0 with
  | false, false, false, false => "0"
  | false, false, false, true => "1"
  | false, false, true, false => "2"
  | false, false, true, true => "3"
  | false, true, false, false => "4"
  | false, true, false, true => "5"
  | false, true, true, false => "6"
  | false, true, true, true => "7"
  | true, false, false, false => "8"
  | true, false, false, true => "9"
  | true, false, true, false => "a"
  | true, false, true, true => "b"
  | true, true, false, false => "c"
  | true, true, false, true => "d"
  | true, true, true, false => "e"
  | true, true, true, true => "f"
  end%char.

Definition hex_value (c : ascii) : option (bool * bool * bool * bool) :=
  match c with
  | "0" => Some (false, false, false, false)
  | "1" => Some (true, false, false, false)
  | "2" => Some (false, true, false, false)
  | "3" => Some (true, true, false, false)
  | "4" => Some (false, false, true, false)
  | "5" => Some (true, false, true, false)
  | "6" => Some (false, true, true, false)
  | "7" => Some (true, true, true, false)
  | "8" => Some (false, false, false, true)
  | "9" => Some (true, false, false, true)
  | "a" => Some (false, true, false, true)
  | "b" => Some (true, true, false, true)
  | "c" => Some (false, false, true, true)
  | "d" => Some (true, false, true, true)
  | "e" => Some (false, true, true, true)
  | "f" => Some (true, true, true, true)
  | _ => None
  end%char.

(** A text is the two hexadecimal digits of each character, then a dot. *)
Fixpoint enc_text (s : string) : string :=
  match s with
  | EmptyString => "."
  | String (Ascii b0 b1 b2 b3 b4 b5 b6 b7) s' =>
      String (hex_digit b4 b5 b6 b7)
        (String (hex_digit b0 b1 b2 b3) (enc_text s'))
  end.

Fixpoint enc (v : JsValue) : string :=
  match v with
  | JUndefined => "u"
  | JNull => "l"
  | JBool true => "t"
  | JBool false => "f"
  | JNum z => String "n" (enc_num z)
  | JStr s => String "s" (enc_text s)
  | JArr items =>
      String "a"
        ((fix enc_items (l : list JsValue) : string :=
            match l with
            | [] => "e"
            | v' :: l' => enc v' ++ enc_items l'
            end) items)
  | JObj fields =>
      String "o"
        ((fix enc_fields (l : list (string * JsValue)) : string :=
            match l with
            | [] => "e"
            | (k, v') :: l' =>
                String "k" (enc_text k ++ enc v' ++ enc_fields l')
            end) fields)
  end.

Fixpoint enc_items (l : list JsValue) : string :=
  match l with
  | [] => "e"
  | v :: l' => enc v ++ enc_items l'
  end.

Fixpoint enc_fields (l : list (string * JsValue)) : string :=
  match l with
  | [] => "e"
  | (k, v) :: l' => String "k" (enc_text k ++ enc v ++ enc_fields l')
  end.

Fixpoint dec_pos (s : string) : option (positive * string) :=
  match s with
  | EmptyString => None
  | String c r =>
      if Ascii.eqb c "." then Some (xH, r)
      else if Ascii.eqb c "0" then
        match dec_pos r with
        | Some (p, r') => Some (xO p, r')
        | None => None
        end
      else if Ascii.eqb c "1" then
        match dec_pos r with
        | Some (p, r') => Some (xI p, r')
        | None => None
        end
      else None
  end.

Definition dec_num (s : string) : option (Z * string) :=
  match s with
  | EmptyString => None
  | String c r =>
      if Ascii.eqb c "z" then Some (0, r)
      else if Ascii.eqb c "p" then
        match dec_pos r with
        | Some (p, r') => Some (Zpos p, r')
        | None => None
        end
      else if Ascii.eqb c "m" then
        match dec_pos r with
        | Some (p, r') => Some (Zneg p, r')
        | None => None
        end
      else None
  end.

Fixpoint dec_text (s : string) : option (string * string) :=
  match s with
  | EmptyString => None
  | String h r =>
      if Ascii.eqb h "." then Some (EmptyString, r)
      else
        match r with
        | EmptyString => None
        | String l r' =>
            match hex_value h, hex_value l, dec_text r' with
            | Some (b4, b5, b6, b7), Some (b0, b1, b2, b3), Some (t, rest) =>
                Some (String (Ascii b0 b1 b2 b3 b4 b5 b6 b7) t, rest)
            | _, _, _ => None
            end
        end
  end.

(** The decoder reads one value off the front of [s]; [fuel] bounds the
    number of nested calls, and the length of [s] is always enough. *)
Fixpoint dec (fuel : nat) (s : string) : option (JsValue * string) :=
  match fuel, s with
  | O, _ | _, EmptyString => None
  | S n, String c r =>
      if Ascii.eqb c "u" then Some (JUndefined, r)
      else if Ascii.eqb c "l" then Some (JNull, r)
      else if Ascii.eqb c "t" then Some (JBool true, r)
      else if Ascii.eqb c "f" then Some (JBool false, r)
      else if Ascii.eqb c "n" then
        match dec_num r with
        | Some (z, r') => Some (JNum z, r')
        | None => None
        end
      else if Ascii.eqb c "s" then
        match dec_text r with
        | Some (t, r') => Some (JStr t, r')
        | None => None
        end
      else if Ascii.eqb c "a" then
        match dec_items n r with
        | Some (l, r') => Some (JArr l, r')
        | None => None
        end
      else if Ascii.eqb c "o" then
        match dec_fields n r with
        | Some (l, r') => Some (JObj l, r')
        | None => None
        end
      else None
  end
with dec_items (fuel : nat) (s : string) : option (list JsValue * string) :=
  match fuel, s with
  | O, _ | _, EmptyString => None
  | S n, String c r =>
      if Ascii.eqb c "e" then Some ([], r)
      else
        match dec n s with
        | Some (v, r1) =>
            match dec_items n r1 with
            | Some (l, r2) => Some (v :: l, r2)
            | None => None
            end
        | None => None
        end
  end
with dec_fields (fuel : nat) (s : string)
  : option (list (string * JsValue) * string) :=
  match fuel, s with
  | O, _ | _, EmptyString => None
  | S n, String c r =>
      if Ascii.eqb c "e" then Some ([], r)
      else if Ascii.eqb c "k" then
        match dec_text r with
        | Some (k, r1) =>
            match dec n r1 with
            | Some (v, r2) =>
                match dec_fields n r2 with
                | Some (l, r3) => Some ((k, v) :: l, r3)
                | None => None
                end
            | None => None
            end
        | None => None
        end
      else None
  end.

(** Decoding reads [v] back off the front of any string that starts with
    its encoding, given the length of the encoding as fuel. *)
Definition dec_enc_at (v : JsValue) : Prop :=
  forall n r, (String.length (enc v) <= n)%nat ->
    dec n (enc v ++ r) = Some (v, r).

Definition stringify (v : JsValue) : string := enc v.

(** A query that is not the serialization of a value reads as the empty
    mapping. *)
Definition parse (q : string) : JsValue :=
  match dec (S (String.length q)) q with
  | Some (v, EmptyString) => v
  | _ => empty_mapping
  end.

(** Modelled from the spec: an instance of the [qs] package, which is not
    part of the sources, with the reversible and URL-safe serialization
    section 6 of the spec asks for. *)
Definition ref_qs : QueryString :=
  {| qs_stringify := stringify; qs_parse := parse |}.

End RefCodec.

(** ** A page to try things on *)

Module Examples.

Definition shop : Location :=
  mkLocation "https:" "shop.example" "8080" "/search" "?query=old" "#top".

Definition phones : JsValue :=
  JObj [("query", JStr "phone"); ("page", JNum 2);
        ("refinementList",
         JObj [("brand", JArr [JStr "Apple"; JStr "Samsung"])])].

Definition tablets : JsValue :=
  JObj [("query", JStr "tablet")].

(** The address of the page for [tablets], without a fragment. *)
Definition tablets_url : string :=
  "https://shop.example:8080/search?ok7175657279.s7461626c6574.e".

Definition search_title (uiState : JsValue) : Completion string :=
  Normal "Search".

(** [state => 'Search: ' + state.query], for a query that is a string:
    reading [query] off [undefined] or [null] throws, and a value without
    the property gives [undefined]. *)
Definition query_title (uiState : JsValue) : Completion string :=
  match uiState with
  | JUndefined | JNull => Throw TypeError
  | JObj fields =>
      match find (fun kv => (fst kv =? "query")%string) fields with
      | Some (_, JStr q) => Normal ("Search: " ++ q)
      | _ => Normal "Search: undefined"
      end
  | _ => Normal "Search: undefined"
  end.

(** A fresh instance with a title function and the default delay, after
    [onUpdate(cb)] for the callback named 7. *)
Definition started : State :=
  onUpdate 7 (initial (Some search_title) None shop).

(** The same with the title function that reads the query. *)
Definition reading : State :=
  onUpdate 7 (initial (Some query_title) None shop).

End Examples.

Module MoreExamples.

(** A fresh instance without options, on the same page; [onUpdate] has not
    been called. *)
Definition plain : State := initial None None Examples.shop.

(** The example page with a write of [phones] pending since 100 ms. *)
Definition writing : State :=
  fst (run (QS := RefCodec.ref_qs)
         [OpWrite Examples.phones; OpElapse 100] Examples.started).

(** Calls and events that leave the page where it is. *)
Definition session : list Op :=
  [OpWrite Examples.phones; OpElapse 400; OpOnUpdate 3;
   OpWrite Examples.tablets; OpElapse 100; OpDispose; OpElapse 400].

End MoreExamples.

(** * Proofs *)

(** ** Strings and addresses *)

Lemma append_assoc (a b c : string) : (a ++ b) ++ c = a ++ (b ++ c).
Proof.
  induction a as [|x a IH]; simpl; [reflexivity | now rewrite IH].
Qed.

Lemma append_empty_r (a : string) : a ++ "" = a.
Proof.
  induction a as [|x a IH]; simpl; [reflexivity | now rewrite IH].
Qed.

Lemma length_append (a b : string) :
  String.length (a ++ b) = (String.length a + String.length b)%nat.
Proof.
  induction a as [|x a IH]; simpl; [reflexivity | now rewrite IH].
Qed.

Lemma occurs_append (c : ascii) (a b : string) :
  occurs c (a ++ b) = occurs c a || occurs c b.
Proof.
  induction a as [|x a IH]; simpl; [reflexivity|].
  now rewrite IH, orb_assoc.
Qed.

Lemma break_at_append (c : ascii) (a b : string) :
  occurs c a = false ->
  break_at c (a ++ b) = (a ++ fst (break_at c b), snd (break_at c b)).
Proof.
  induction a as [|x a IH]; simpl; intros H.
  - now destruct (break_at c b).
  - apply orb_false_elim in H as [Hx Ha].
    rewrite Hx, (IH Ha). reflexivity.
Qed.

Lemma break_at_absent (c : ascii) (s : string) :
  occurs c s = false -> break_at c s = (s, "").
Proof.
  intros H. rewrite <- (append_empty_r s) at 1.
  rewrite (break_at_append _ _ _ H). simpl. now rewrite append_empty_r.
Qed.

Lemma break_at_here (c : ascii) (s : string) :
  starts_with c s || (s =? "")%string = true -> break_at c s = ("", s).
Proof.
  destruct s as [|x s]; simpl; [reflexivity|].
  rewrite orb_false_r. now intros ->.
Qed.

Lemma break_at_parts (c : ascii) (s l r : string) :
  break_at c s = (l, r) -> s = l ++ r /\ occurs c l = false.
Proof.
  revert l r. induction s as [|x s IH]; simpl; intros l r H.
  - now inversion H.
  - destruct (Ascii.eqb x c) eqn:E.
    + now inversion H.
    + destruct (break_at c s) as [l' r'] eqn:B. inversion H; subst.
      destruct (IH _ _ eq_refl) as [-> Hl]. simpl. now rewrite E, Hl.
Qed.

(** What [wf_location] says, component by component. *)
Lemma wf_location_parts (loc : Location) :
  wf_location loc = true ->
  (exists scheme, protocol loc = scheme ++ ":"
     /\ occurs ":" scheme = false /\ no_delimiter scheme = true)
  /\ no_delimiter (hostname loc) = true
  /\ occurs ":" (hostname loc) = false
  /\ no_delimiter (port loc) = true
  /\ starts_with "/" (pathname loc) || (pathname loc =? "")%string = true
  /\ occurs "?" (pathname loc) = false
  /\ occurs "#" (pathname loc) = false
  /\ (hash loc =? "#")%string = false
  /\ starts_with "#" (hash loc) || (hash loc =? "")%string = true.
Proof.
  unfold wf_location. intros H.
  repeat (apply andb_prop in H as [H ?]).
  destruct (break_at ":" (protocol loc)) as [scheme colon] eqn:B.
  apply andb_prop in H as [Hc Hs].
  apply String.eqb_eq in Hc. subst colon.
  apply break_at_parts in B as [Hp Hfree].
  repeat match goal with
         | H : negb _ = true |- _ => apply negb_true_iff in H
         end.
  repeat split; try assumption.
  exists scheme. auto.
Qed.

Lemma no_delimiter_parts (s : string) :
  no_delimiter s = true ->
  occurs "/" s = false /\ occurs "?" s = false /\ occurs "#" s = false.
Proof.
  unfold no_delimiter. intros H.
  repeat (apply andb_prop in H as [H ?]).
  repeat match goal with
         | H : negb _ = true |- _ => apply negb_true_iff in H
         end.
  auto.
Qed.

Lemma port_prefix_parts (p : string) :
  no_delimiter p = true ->
  let pwp := if (p =? "")%string then "" else ":" ++ p in
  occurs "/" pwp = false /\ occurs "?" pwp = false /\ occurs "#" pwp = false
  /\ break_at ":" pwp = ("", pwp) /\ slice 1 pwp = p.
Proof.
  intros H. apply no_delimiter_parts in H as (H1 & H2 & H3).
  destruct (String.eqb_spec p ""); subst; simpl; auto.
Qed.

(** The browser reads an address spelled by [createURL] back into the
    components it was built of, with the new query. *)
Lemma parse_url_origin_path (loc : Location) (query : string) :
  wf_location loc = true ->
  occurs "#" query = false ->
  starts_with "?" query || (query =? "")%string = true ->
  parse_url (origin_path loc ++ query ++ hash loc)
  = with_search (if (query =? "?")%string then "" else query) loc.
Proof.
  intros Hwf Hq Hstart.
  destruct (wf_location_parts _ Hwf)
    as ((scheme & Hproto & Hcolon & Hscheme) & Hhost & Hhostc & Hport
        & Hpath & Hpathq & Hpathh & Hhash & Hhashs).
  apply no_delimiter_parts in Hscheme as (Hs1 & Hs2 & Hs3).
  apply no_delimiter_parts in Hhost as (Hh1 & Hh2 & Hh3).
  destruct (port_prefix_parts _ Hport) as (Hp1 & Hp2 & Hp3 & Hp4 & Hp5).
  unfold parse_url, origin_path, with_search.
  set (pwp := if (port loc =? "")%string then "" else ":" ++ port loc) in *.
  rewrite Hproto.
  rewrite !append_assoc.
  (* the fragment *)
  rewrite (break_at_append "#" scheme) by assumption.
  change (":" ++ ?x) with (String ":" x).
  change ("//" ++ ?x) with (String "/" (String "/" x)).
  cbn [break_at Ascii.eqb Bool.eqb fst snd].
  rewrite (break_at_append "#" (hostname loc)) by assumption.
  rewrite (break_at_append "#" pwp) by assumption.
  rewrite (break_at_append "#" (pathname loc)) by assumption.
  rewrite (break_at_append "#" query) by assumption.
  rewrite (break_at_here "#" (hash loc)) by assumption.
  cbn [fst snd].
  rewrite !append_empty_r.
  (* the query *)
  rewrite (break_at_append "?" scheme) by assumption.
  cbn [break_at Ascii.eqb Bool.eqb fst snd].
  rewrite (break_at_append "?" (hostname loc)) by assumption.
  rewrite (break_at_append "?" pwp) by assumption.
  rewrite (break_at_append "?" (pathname loc)) by assumption.
  rewrite (break_at_here "?" query) by assumption.
  cbn [fst snd].
  rewrite !append_empty_r.
  (* scheme, authority and path *)
  rewrite (break_at_append ":" scheme) by assumption.
  cbn [break_at Ascii.eqb Bool.eqb fst snd slice].
  rewrite append_empty_r.
  rewrite (break_at_append "/" (hostname loc)) by assumption.
  rewrite (break_at_append "/" pwp) by assumption.
  rewrite (break_at_here "/" (pathname loc)) by assumption.
  cbn [fst snd].
  rewrite append_empty_r.
  rewrite (break_at_append ":" (hostname loc)) by assumption.
  rewrite Hp4. cbn [fst snd].
  change (match pwp with "" => "" | String _ s' => s' end) with (slice 1 pwp).
  now rewrite append_empty_r, Hp5, Hhash.
Qed.

(** ** The reference serialization meets the laws *)

(** Induction over values that reaches into arrays and mappings. *)
Lemma JsValue_nested_ind (P : JsValue -> Prop) :
  P JUndefined -> P JNull -> (forall b, P (JBool b)) ->
  (forall z, P (JNum z)) -> (forall s, P (JStr s)) ->
  (forall items, Forall P items -> P (JArr items)) ->
  (forall fields, Forall (fun kv => P (snd kv)) fields -> P (JObj fields)) ->
  forall v, P v.
Proof.
  intros Hu Hn Hb Hz Hs Ha Ho.
  fix IH 1. intros [| | b | z | s | items | fields].
  - exact Hu.
  - exact Hn.
  - apply Hb.
  - apply Hz.
  - apply Hs.
  - apply Ha. induction items as [|v items IHi]; constructor.
    + apply IH.
    + exact IHi.
  - apply Ho. induction fields as [|[k v] fields IHf]; constructor.
    + apply IH.
    + exact IHf.
Qed.

Module RefCodecFacts.
Import RefCodec.

Lemma enc_arr (items : list JsValue) :
  enc (JArr items) = String "a" (enc_items items).
Proof.
  reflexivity.
Qed.

Lemma enc_obj (fields : list (string * JsValue)) :
  enc (JObj fields) = String "o" (enc_fields fields).
Proof.
  reflexivity.
Qed.

Lemma hex_value_digit (a b c d : bool) :
  hex_value (hex_digit a b c d) = Some (a, b, c, d).
Proof. destruct a, b, c, d; reflexivity. Qed.

Lemma hex_digit_value (h : ascii) (a b c d : bool) :
  hex_value h = Some (a, b, c, d) -> hex_digit a b c d = h.
Proof.
  destruct h as [[] [] [] [] [] [] [] []]; simpl; intros H;
    try discriminate H; inversion H; reflexivity.
Qed.

Lemma hex_digit_not_dot (a b c d : bool) :
  Ascii.eqb (hex_digit a b c d) "." = false.
Proof. destruct a, b, c, d; reflexivity. Qed.

Lemma hex_digit_not_hash (a b c d : bool) :
  Ascii.eqb (hex_digit a b c d) "#" = false.
Proof. destruct a, b, c, d; reflexivity. Qed.

(** *** Numbers *)

Lemma dec_pos_enc (p : positive) (r : string) :
  dec_pos (enc_pos p ++ r) = Some (p, r).
Proof.
  induction p as [p IH | p IH |]; simpl; try rewrite IH; reflexivity.
Qed.

Lemma dec_pos_sound (s : string) :
  forall p r, dec_pos s = Some (p, r) -> s = enc_pos p ++ r.
Proof.
  induction s as [|c s IH]; simpl; intros p r H; [discriminate|].
  destruct (Ascii.eqb_spec c ".") as [->|_]; [now inversion H|].
  destruct (Ascii.eqb_spec c "0") as [->|_].
  { destruct (dec_pos s) as [[p' r']|]; [|discriminate].
    inversion H; subst. now rewrite (IH _ _ eq_refl). }
  destruct (Ascii.eqb_spec c "1") as [->|_]; [|discriminate].
  destruct (dec_pos s) as [[p' r']|]; [|discriminate].
  inversion H; subst. now rewrite (IH _ _ eq_refl).
Qed.

Lemma dec_num_enc (z : Z) (r : string) :
  dec_num (enc_num z ++ r) = Some (z, r).
Proof.
  destruct z; simpl; try rewrite dec_pos_enc; reflexivity.
Qed.

Lemma dec_num_sound (s : string) (z : Z) (r : string) :
  dec_num s = Some (z, r) -> s = enc_num z ++ r.
Proof.
  destruct s as [|c s]; simpl; intros H; [discriminate|].
  destruct (Ascii.eqb_spec c "z") as [->|_]; [now inversion H|].
  destruct (Ascii.eqb_spec c "p") as [->|_].
  { destruct (dec_pos s) as [[p' r']|] eqn:D; [|discriminate].
    inversion H; subst. now rewrite (dec_pos_sound _ _ _ D). }
  destruct (Ascii.eqb_spec c "m") as [->|_]; [|discriminate].
  destruct (dec_pos s) as [[p' r']|] eqn:D; [|discriminate].
  inversion H; subst. now rewrite (dec_pos_sound _ _ _ D).
Qed.

(** *** Texts *)

Lemma dec_text_enc (t : string) (r : string) :
  dec_text (enc_text t ++ r) = Some (t, r).
Proof.
  induction t as [|[b0 b1 b2 b3 b4 b5 b6 b7] t IH]; [reflexivity|].
  cbn [enc_text append dec_text].
  now rewrite hex_digit_not_dot, !hex_value_digit, IH.
Qed.

Lemma dec_text_sound_upto (n : nat) :
  forall s t r, (String.length s <= n)%nat ->
    dec_text s = Some (t, r) -> s = enc_text t ++ r.
Proof.
  induction n as [|n IH]; intros s t r Hlen H.
  - destruct s; [discriminate H | simpl in Hlen; lia].
  - destruct s as [|h s]; [discriminate H|]. cbn [dec_text] in H.
    destruct (Ascii.eqb_spec h ".") as [->|_]; [now inversion H|].
    destruct s as [|l s]; [discriminate H|].
    destruct (hex_value h) as [[[[b4 b5] b6] b7]|] eqn:Hh; [|discriminate H].
    destruct (hex_value l) as [[[[b0 b1] b2] b3]|] eqn:Hl; [|discriminate H].
    destruct (dec_text s) as [[t' rest]|] eqn:D; [|discriminate H].
    inversion H; subst. cbn [enc_text append].
    rewrite (hex_digit_value _ _ _ _ _ Hh), (hex_digit_value _ _ _ _ _ Hl).
    simpl in Hlen. rewrite (IH s t' r) at 1; [reflexivity | lia | assumption].
Qed.

Lemma dec_text_sound (s t r : string) :
  dec_text s = Some (t, r) -> s = enc_text t ++ r.
Proof. apply (dec_text_sound_upto (String.length s)). lia. Qed.

(** *** Values *)

Lemma dec_S (n : nat) (c : ascii) (r : string) :
  dec (S n) (String c r) =
  if Ascii.eqb c "u" then Some (JUndefined, r)
  else if Ascii.eqb c "l" then Some (JNull, r)
  else if Ascii.eqb c "t" then Some (JBool true, r)
  else if Ascii.eqb c "f" then Some (JBool false, r)
  else if Ascii.eqb c "n" then
    match dec_num r with
    | Some (z, r') => Some (JNum z, r')
    | None => None
    end
  else if Ascii.eqb c "s" then
    match dec_text r with
    | Some (t, r') => Some (JStr t, r')
    | None => None
    end
  else if Ascii.eqb c "a" then
    match dec_items n r with
    | Some (l, r') => Some (JArr l, r')
    | None => None
    end
  else if Ascii.eqb c "o" then
    match dec_fields n r with
    | Some (l, r') => Some (JObj l, r')
    | None => None
    end
  else None.
Proof. reflexivity. Qed.

Lemma dec_items_S (n : nat) (c : ascii) (r : string) :
  dec_items (S n) (String c r) =
  if Ascii.eqb c "e" then Some ([], r)
  else
    match dec n (String c r) with
    | Some (v, r1) =>
        match dec_items n r1 with
        | Some (l, r2) => Some (v :: l, r2)
        | None => None
        end
    | None => None
    end.
Proof. reflexivity. Qed.

Lemma dec_fields_S (n : nat) (c : ascii) (r : string) :
  dec_fields (S n) (String c r) =
  if Ascii.eqb c "e" then Some ([], r)
  else if Ascii.eqb c "k" then
    match dec_text r with
    | Some (k, r1) =>
        match dec n r1 with
        | Some (v, r2) =>
            match dec_fields n r2 with
            | Some (l, r3) => Some ((k, v) :: l, r3)
            | None => None
            end
        | None => None
        end
    | None => None
    end
  else None.
Proof. reflexivity. Qed.

(** A value never starts with the sign that ends a list. *)
Lemma enc_head (v : JsValue) :
  exists c rest, enc v = String c rest /\ Ascii.eqb c "e" = false.
Proof.
  destruct v as [| | [] | z | s | items | fields]; simpl; eauto.
Qed.

Lemma enc_length (v : JsValue) : (1 <= String.length (enc v))%nat.
Proof.
  destruct (enc_head v) as (c & rest & -> & _). simpl. lia.
Qed.

Lemma enc_items_length (l : list JsValue) :
  (1 <= String.length (enc_items l))%nat.
Proof.
  destruct l; simpl; [lia|]. rewrite length_append.
  pose proof (enc_length j). lia.
Qed.

Lemma enc_fields_length (l : list (string * JsValue)) :
  (1 <= String.length (enc_fields l))%nat.
Proof.
  destruct l as [|[k v] l]; simpl; lia.
Qed.

Lemma dec_items_enc (items : list JsValue) :
  Forall dec_enc_at items ->
  forall n r, (String.length (enc_items items) <= n)%nat ->
    dec_items n (enc_items items ++ r) = Some (items, r).
Proof.
  induction 1 as [|v l Hv _ IHl]; intros n r Hn.
  - destruct n as [|n]; [simpl in Hn; lia|]. reflexivity.
  - cbn [enc_items] in *. rewrite length_append in Hn.
    pose proof (enc_length v). pose proof (enc_items_length l).
    destruct n as [|n]; [lia|].
    rewrite append_assoc.
    destruct (enc_head v) as (c & rest & E & Hc).
    assert (Hd : dec n (enc v ++ enc_items l ++ r)
                 = Some (v, enc_items l ++ r)) by (apply Hv; lia).
    rewrite E in Hd |- *. cbn [append] in Hd |- *.
    rewrite dec_items_S, Hc, Hd, IHl by lia. reflexivity.
Qed.

Lemma dec_fields_enc (fields : list (string * JsValue)) :
  Forall (fun kv => dec_enc_at (snd kv)) fields ->
  forall n r, (String.length (enc_fields fields) <= n)%nat ->
    dec_fields n (enc_fields fields ++ r) = Some (fields, r).
Proof.
  induction 1 as [|[k v] l Hv _ IHl]; intros n r Hn.
  - destruct n as [|n]; [simpl in Hn; lia|]. reflexivity.
  - cbn [enc_fields snd] in *. cbn [String.length] in Hn.
    rewrite !length_append in Hn.
    pose proof (enc_length v). pose proof (enc_fields_length l).
    destruct n as [|n]; [lia|].
    cbn [append]. rewrite dec_fields_S. cbn [Ascii.eqb Bool.eqb].
    rewrite !append_assoc, dec_text_enc, Hv, IHl by lia. reflexivity.
Qed.

(** Decoding undoes encoding, with the length of the encoding as fuel. *)
Lemma dec_enc (v : JsValue) : dec_enc_at v.
Proof.
  induction v as [| | b | z | s | items IH | fields IH]
    using JsValue_nested_ind; intros n r Hn;
    (destruct n as [|n];
     [match type of Hn with
      | (String.length (enc ?v) <= _)%nat => pose proof (enc_length v); lia
      end|]).
  - reflexivity.
  - reflexivity.
  - destruct b; reflexivity.
  - cbn [enc append]. rewrite dec_S. cbn [Ascii.eqb Bool.eqb].
    now rewrite dec_num_enc.
  - cbn [enc append]. rewrite dec_S. cbn [Ascii.eqb Bool.eqb].
    now rewrite dec_text_enc.
  - rewrite enc_arr in *. cbn [append String.length] in *.
    rewrite dec_S. cbn [Ascii.eqb Bool.eqb].
    rewrite (dec_items_enc _ IH) by lia. reflexivity.
  - rewrite enc_obj in *. cbn [append String.length] in *.
    rewrite dec_S. cbn [Ascii.eqb Bool.eqb].
    rewrite (dec_fields_enc _ IH) by lia. reflexivity.
Qed.

(** Whatever the decoder accepts is the encoding of what it returns. *)
Lemma dec_sound (n : nat) :
  (forall s v r, dec n s = Some (v, r) -> s = enc v ++ r)
  /\ (forall s l r, dec_items n s = Some (l, r) -> s = enc_items l ++ r)
  /\ (forall s l r, dec_fields n s = Some (l, r) -> s = enc_fields l ++ r).
Proof.
  induction n as [|n (IHv & IHi & IHf)].
  - repeat split; intros [|c s] ? ? H; discriminate H.
  - repeat split; intros [|c s] x r H; try discriminate H.
    + rewrite dec_S in H.
      destruct (Ascii.eqb_spec c "u") as [->|_]; [now inversion H|].
      destruct (Ascii.eqb_spec c "l") as [->|_]; [now inversion H|].
      destruct (Ascii.eqb_spec c "t") as [->|_]; [now inversion H|].
      destruct (Ascii.eqb_spec c "f") as [->|_]; [now inversion H|].
      destruct (Ascii.eqb_spec c "n") as [->|_].
      { destruct (dec_num s) as [[z r']|] eqn:D; [|discriminate H].
        inversion H; subst. now rewrite (dec_num_sound _ _ _ D). }
      destruct (Ascii.eqb_spec c "s") as [->|_].
      { destruct (dec_text s) as [[t r']|] eqn:D; [|discriminate H].
        inversion H; subst. now rewrite (dec_text_sound _ _ _ D). }
      destruct (Ascii.eqb_spec c "a") as [->|_].
      { destruct (dec_items n s) as [[l r']|] eqn:D; [|discriminate H].
        inversion H; subst. now rewrite enc_arr, (IHi _ _ _ D). }
      destruct (Ascii.eqb_spec c "o") as [->|_]; [|discriminate H].
      destruct (dec_fields n s) as [[l r']|] eqn:D; [|discriminate H].
      inversion H; subst. now rewrite enc_obj, (IHf _ _ _ D).
    + rewrite dec_items_S in H.
      destruct (Ascii.eqb_spec c "e") as [->|_]; [now inversion H|].
      destruct (dec n (String c s)) as [[v r1]|] eqn:D; [|discriminate H].
      destruct (dec_items n r1) as [[l r2]|] eqn:Dl; [|discriminate H].
      inversion H; subst. cbn [enc_items].
      now rewrite append_assoc, <- (IHi _ _ _ Dl), <- (IHv _ _ _ D).
    + rewrite dec_fields_S in H.
      destruct (Ascii.eqb_spec c "e") as [->|_]; [now inversion H|].
      destruct (Ascii.eqb_spec c "k") as [->|_]; [|discriminate H].
      destruct (dec_text s) as [[k r1]|] eqn:Dk; [|discriminate H].
      destruct (dec n r1) as [[v r2]|] eqn:D; [|discriminate H].
      destruct (dec_fields n r2) as [[l r3]|] eqn:Dl; [|discriminate H].
      inversion H; subst. cbn [enc_fields append].
      now rewrite !append_assoc, <- (IHf _ _ _ Dl), <- (IHv _ _ _ D),
        <- (dec_text_sound _ _ _ Dk).
Qed.

(** *** The alphabet *)

Lemma enc_pos_safe (p : positive) : occurs "#" (enc_pos p) = false.
Proof. induction p; simpl; auto. Qed.

Lemma enc_num_safe (z : Z) : occurs "#" (enc_num z) = false.
Proof. destruct z; simpl; auto using enc_pos_safe. Qed.

Lemma enc_text_safe (t : string) : occurs "#" (enc_text t) = false.
Proof.
  induction t as [|[b0 b1 b2 b3 b4 b5 b6 b7] t IH]; [reflexivity|].
  cbn [enc_text occurs]. now rewrite !hex_digit_not_hash, IH.
Qed.

Lemma enc_safe (v : JsValue) : occurs "#" (enc v) = false.
Proof.
  induction v as [| | b | z | s | items IH | fields IH]
    using JsValue_nested_ind; try reflexivity.
  - now destruct b.
  - simpl. apply enc_num_safe.
  - simpl. apply enc_text_safe.
  - rewrite enc_arr. cbn [occurs Ascii.eqb Bool.eqb orb].
    induction IH as [|v l Hv _ IHl]; [reflexivity|].
    cbn [enc_items]. now rewrite occurs_append, Hv, IHl.
  - rewrite enc_obj. cbn [occurs Ascii.eqb Bool.eqb orb].
    induction IH as [|[k v] l Hv _ IHl]; [reflexivity|].
    cbn [enc_fields occurs Ascii.eqb Bool.eqb orb snd] in *.
    now rewrite !occurs_append, enc_text_safe, Hv, IHl.
Qed.

(** *** The laws *)

Lemma parse_enc (v : JsValue) : parse (stringify v) = v.
Proof.
  unfold parse, stringify.
  rewrite <- (append_empty_r (enc v)) at 2.
  rewrite dec_enc; [reflexivity | lia].
Qed.

Lemma parse_outside (q : string) :
  (forall v, stringify v <> q) -> parse q = empty_mapping.
Proof.
  unfold parse, stringify. intros H.
  destruct (dec (S (String.length q)) q) as [[v [|c r]]|] eqn:D;
    try reflexivity.
  destruct (dec_sound (S (String.length q))) as (Hv & _ & _).
  apply Hv in D. rewrite append_empty_r in D. now destruct (H v).
Qed.

Lemma ref_qs_laws : QueryStringLaws ref_qs.
Proof.
  constructor; simpl.
  - intros s _. apply parse_enc.
  - apply enc_safe.
  - reflexivity.
  - apply parse_outside.
Qed.

End RefCodecFacts.

(** ** The class *)

Section Properties.

Context {QS : QueryString}.

(** *** [createURL] *)

Lemma origin_path_append (loc : Location) (rest : string) :
  origin_path loc ++ rest =
  protocol loc ++ "//" ++ hostname loc
  ++ (if (port loc =? "")%string then "" else ":" ++ port loc)
  ++ pathname loc ++ rest.
Proof. unfold origin_path. now rewrite !append_assoc. Qed.

Lemma createURL_normal (loc : Location) (uiState : JsValue) :
  createURL loc uiState =
  Normal (if is_empty_state uiState
          then origin_path loc ++ hash loc
          else origin_path loc ++ "?" ++ qs_stringify uiState ++ hash loc).
Proof.
  rewrite !origin_path_append. unfold createURL, is_empty_state.
  destruct (truthy uiState) eqn:T; cbn [negb orb bind]; [|reflexivity].
  destruct uiState as [| | b | z | s | items | fields];
    try discriminate T; cbn [object_keys bind];
    match goal with
    | |- context [Nat.eqb ?n 0] => now destruct (Nat.eqb n 0)
    end.
Qed.

Lemma is_empty_mapping (fields : list (string * JsValue)) :
  is_empty_state (JObj fields) = match fields with [] => true | _ => false end.
Proof. now destruct fields. Qed.

(** *** The pending write *)

Lemma Inv_cases (s : State) :
  Inv s ->
  timers (window s) = []
  \/ exists t, timers (window s) = [t]
       /\ writeTimer (this s) = Some (timer_id t)
       /\ 0 < timer_id t < next_timer (window s).
Proof.
  intros [Hn Ht Hs].
  destruct (timers (window s)) as [|t [|u l]] eqn:E.
  - now left.
  - right. exists t. split; [reflexivity|]. apply Ht. now left.
  - simpl in Hs. lia.
Qed.

Lemma clear_pending_Inv (s : State) :
  Inv s -> clear_pending s = set_timers [] (window s).
Proof.
  intros H. destruct (Inv_cases s H) as [E | (t & E & Hw & Hid)];
    unfold clear_pending, clearTimeout.
  - destruct s as [w m]; destruct w; simpl in *; subst.
    destruct (writeTimer m) as [id|]; [destruct (negb (id =? 0))|];
      reflexivity.
  - rewrite Hw, E. simpl.
    replace (timer_id t =? 0) with false by (symmetry; apply Z.eqb_neq; lia).
    simpl. now rewrite Z.eqb_refl.
Qed.

Lemma title_returns_Normal (m : ModernURL) (uiState : JsValue) :
  title_returns m uiState = true ->
  exists title, title_of m uiState = Normal title.
Proof.
  unfold title_returns. destruct (title_of m uiState) as [title|e]; [|easy].
  eauto.
Qed.

Lemma title_returns_Throw (m : ModernURL) (uiState : JsValue) :
  title_returns m uiState = false ->
  exists e, title_of m uiState = Throw e.
Proof.
  unfold title_returns. destruct (title_of m uiState) as [title|e]; [easy|].
  eauto.
Qed.

(** A write whose title function throws leaves everything as it was. *)
Lemma write_throws (uiState : JsValue) (s : State) :
  title_returns (this s) uiState = false ->
  exists e, write uiState s = (s, Some e).
Proof.
  intros T. destruct (title_returns_Throw _ _ T) as (e & E).
  unfold write. rewrite createURL_normal, E. eauto.
Qed.

Lemma write_Inv (uiState : JsValue) (s : State) :
  Inv s ->
  title_returns (this s) uiState = true ->
  exists t url,
    createURL (location (window s)) uiState = Normal url
    /\ pending_write uiState s = Normal t
    /\ write uiState s =
       (mkState
          (mkWindow (location (window s)) (title_writes (window s))
             (pushed (window s)) [t] (next_timer (window s) + 1)
             (clock (window s)) (listeners (window s))
             (next_listener (window s)) (delivered (window s)))
          (set_writeTimer (Some (next_timer (window s))) (this s)), None).
Proof.
  intros H T. destruct (title_returns_Normal _ _ T) as (title & E).
  unfold write, pending_write.
  rewrite createURL_normal, E. cbn [bind].
  rewrite (clear_pending_Inv s H). unfold setTimeout. cbn.
  eexists _, _. repeat split.
Qed.

Lemma pending_write_fields (uiState : JsValue) (s : State) (t : Timer) :
  pending_write uiState s = Normal t ->
  timer_id t = next_timer (window s)
  /\ timer_due t = clock (window s) + Z.max 0 (writeTimeout (this s))
  /\ exists url title,
       createURL (location (window s)) uiState = Normal url
       /\ title_of (this s) uiState = Normal title
       /\ timer_task t = mkTask title uiState url.
Proof.
  unfold pending_write. rewrite createURL_normal. cbn [bind].
  destruct (title_of (this s) uiState) as [title|e]; cbn [bind];
    intros H; [|discriminate H].
  inversion H; subst; cbn. split; [reflexivity|]. split; [reflexivity|].
  eexists _, _. repeat split.
Qed.

Lemma Inv_write (uiState : JsValue) (s : State) :
  Inv s -> Inv (fst (write uiState s)).
Proof.
  intros H. destruct (title_returns (this s) uiState) eqn:T.
  - destruct (write_Inv uiState s H T) as (t & url & _ & Ht & ->).
    destruct (pending_write_fields _ _ _ Ht) as (Hid & _).
    destruct H as [Hn _ _].
    constructor; cbn.
    + lia.
    + intros t' [<-|[]]. rewrite Hid. split; [reflexivity | lia].
    + lia.
  - destruct (write_throws uiState s T) as (e & ->). exact H.
Qed.

Lemma Inv_onUpdate (cb : nat) (s : State) : Inv s -> Inv (onUpdate cb s).
Proof.
  intros [Hn Ht Hs]. constructor; cbn; assumption.
Qed.

Lemma Inv_idle (s : State) :
  0 < next_timer (window s) -> timers (window s) = [] -> Inv s.
Proof.
  intros Hn E. constructor; rewrite ?E; cbn; [assumption | intros ? [] | lia].
Qed.

(** *** The navigation handler *)

Lemma cancel_pending_window (s : State) :
  exists ts, window (cancel_pending s) = set_timers ts (window s).
Proof.
  unfold cancel_pending, clearTimeout.
  destruct (writeTimer (this s)) as [id|]; [destruct (negb (id =? 0))|];
    cbn; eauto; exists (timers (window s)); now destruct s as [[] ?].
Qed.

Lemma cancel_pending_Inv (s : State) :
  Inv s -> window (cancel_pending s) = set_timers [] (window s).
Proof.
  intros H. unfold cancel_pending, clearTimeout.
  destruct (Inv_cases s H) as [E | (t & E & Hw & Hid)].
  - destruct (writeTimer (this s)) as [id|]; [destruct (negb (id =? 0))|];
      cbn; rewrite ?E; try reflexivity;
      destruct s as [[] ?]; cbn in *; now subst.
  - rewrite Hw.
    replace (timer_id t =? 0) with false by (symmetry; apply Z.eqb_neq; lia).
    cbn. rewrite E. cbn. now rewrite Z.eqb_refl.
Qed.

Lemma cancel_pending_this (s : State) :
  titleFromUIState (this (cancel_pending s)) = titleFromUIState (this s)
  /\ writeTimeout (this (cancel_pending s)) = writeTimeout (this s)
  /\ _onPopState (this (cancel_pending s)) = _onPopState (this s).
Proof.
  unfold cancel_pending.
  destruct (writeTimer (this s)) as [id|]; [destruct (negb (id =? 0))|];
    cbn; auto.
Qed.

Lemma on_pop_state_window (l : Listener) (ev : JsValue) (s : State) :
  window (on_pop_state l ev s) =
  call (listener_cb l) (if truthy ev then ev else read s)
    (window (cancel_pending s)).
Proof.
  unfold on_pop_state, read.
  destruct (cancel_pending_window s) as (ts & E).
  destruct (truthy ev); cbn; [reflexivity|]. now rewrite E.
Qed.

Lemma on_pop_state_this (l : Listener) (ev : JsValue) (s : State) :
  this (on_pop_state l ev s) = this (cancel_pending s).
Proof. unfold on_pop_state. now destruct (truthy ev). Qed.

Lemma Inv_on_pop_state (l : Listener) (ev : JsValue) (s : State) :
  Inv s ->
  Inv (on_pop_state l ev s) /\ timers (window (on_pop_state l ev s)) = [].
Proof.
  intros H.
  assert (E : timers (window (on_pop_state l ev s)) = []).
  { now rewrite on_pop_state_window, (cancel_pending_Inv s H). }
  split; [|exact E]. apply Inv_idle; [|exact E].
  rewrite on_pop_state_window, (cancel_pending_Inv s H). cbn. apply H.
Qed.

(** *** Events *)

Lemma read_on_pop_state (l : Listener) (ev : JsValue) (s : State) :
  read (on_pop_state l ev s) = read s.
Proof.
  unfold read. rewrite on_pop_state_window.
  destruct (cancel_pending_window s) as (ts & ->). reflexivity.
Qed.

Lemma pop_all_window (ev : JsValue) (ls : list Listener) :
  forall s, exists ts,
    window (pop_all ev ls s) =
    mkWindow (location (window s)) (title_writes (window s))
      (pushed (window s)) ts (next_timer (window s)) (clock (window s))
      (listeners (window s)) (next_listener (window s))
      (delivered (window s)
       ++ map (fun l => (listener_cb l, if truthy ev then ev else read s)) ls).
Proof.
  induction ls as [|l ls IH]; intros s; cbn [pop_all fold_left map].
  - exists (timers (window s)). rewrite app_nil_r. now destruct s as [[] ?].
  - destruct (IH (on_pop_state l ev s)) as (ts & E). exists ts.
    unfold pop_all in E. rewrite E, read_on_pop_state, on_pop_state_window.
    destruct (cancel_pending_window s) as (ts' & ->). cbn.
    now rewrite <- app_assoc.
Qed.

Lemma pop_all_this (ev : JsValue) (ls : list Listener) :
  forall s,
    titleFromUIState (this (pop_all ev ls s)) = titleFromUIState (this s)
    /\ writeTimeout (this (pop_all ev ls s)) = writeTimeout (this s)
    /\ _onPopState (this (pop_all ev ls s)) = _onPopState (this s).
Proof.
  induction ls as [|l ls IH]; intros s; cbn [pop_all fold_left]; auto.
  destruct (IH (on_pop_state l ev s)) as (H1 & H2 & H3).
  unfold pop_all in *. rewrite H1, H2, H3, on_pop_state_this.
  apply cancel_pending_this.
Qed.

Lemma Inv_pop_all (ev : JsValue) (ls : list Listener) :
  forall s, Inv s ->
    Inv (pop_all ev ls s)
    /\ (timers (window s) = [] \/ ls <> [] ->
        timers (window (pop_all ev ls s)) = []).
Proof.
  induction ls as [|l ls IH]; intros s H; cbn [pop_all fold_left].
  - split; [assumption|]. now intros [E|E].
  - destruct (Inv_on_pop_state l ev s H) as [H1 E1].
    destruct (IH _ H1) as [H2 E2]. split; [exact H2|].
    intros _. apply E2. now left.
Qed.

(** *** Timers *)

Lemma set_timers_same (w : Window) (ts : list Timer) :
  timers w = ts -> set_timers ts w = w.
Proof. intros <-. now destruct w. Qed.

Lemma elapse_idle (d : Z) (s : State) :
  timers (window s) = [] ->
  elapse d s =
  mkState (set_clock (clock (window s) + Z.max 0 d) (window s)) (this s).
Proof.
  intros E. unfold elapse. rewrite E. cbn.
  now rewrite (set_timers_same _ _ E).
Qed.

Lemma elapse_waiting (d : Z) (s : State) (t : Timer) :
  timers (window s) = [t] ->
  clock (window s) + Z.max 0 d < timer_due t ->
  elapse d s =
  mkState (set_clock (clock (window s) + Z.max 0 d) (window s)) (this s).
Proof.
  intros E Hd. unfold elapse. rewrite E. cbn.
  replace (timer_due t <=? clock (window s) + Z.max 0 d) with false
    by (symmetry; apply Z.leb_gt; lia).
  cbn. now rewrite (set_timers_same _ _ E).
Qed.

Lemma elapse_firing (d : Z) (s : State) (t : Timer) :
  timers (window s) = [t] ->
  timer_due t <= clock (window s) + Z.max 0 d ->
  elapse d s =
  run_task (timer_task t)
    (mkState
       (set_clock (clock (window s) + Z.max 0 d) (set_timers [] (window s)))
       (this s)).
Proof.
  intros E Hd. unfold elapse. rewrite E. cbn.
  replace (timer_due t <=? clock (window s) + Z.max 0 d) with true
    by (symmetry; apply Z.leb_le; lia).
  reflexivity.
Qed.

Lemma Inv_elapse (d : Z) (s : State) : Inv s -> Inv (elapse d s).
Proof.
  intros H. destruct (Inv_cases s H) as [E | (t & E & Hw & Hid)].
  - rewrite (elapse_idle d s E). apply Inv_idle; cbn; [apply H | exact E].
  - destruct (Z.lt_ge_cases (clock (window s) + Z.max 0 d) (timer_due t)).
    + rewrite (elapse_waiting d s t E) by assumption.
      destruct H as [Hn Ht Hs]. constructor; cbn; assumption.
    + rewrite (elapse_firing d s t E) by assumption.
      apply Inv_idle; unfold run_task; destruct (has_title _); cbn;
        try reflexivity; apply H.
Qed.

(** *** [dispose] *)

(** The page when [dispose] calls [write()]: without the listener, with no
    timer. *)
Lemma dispose_reaches (s : State) :
  Inv s ->
  dispose s =
  write JUndefined
    (mkState
       (mkWindow (location (window s)) (title_writes (window s))
          (pushed (window s)) [] (next_timer (window s)) (clock (window s))
          (listeners (removeEventListener (_onPopState (this s)) (window s)))
          (next_listener (window s)) (delivered (window s)))
       (this s)).
Proof.
  intros H. unfold dispose. f_equal.
  set (s1 := mkState (removeEventListener (_onPopState (this s)) (window s))
               (this s)).
  assert (H1 : Inv s1).
  { destruct H as [Hn Ht Hs]. unfold s1, removeEventListener.
    destruct (_onPopState (this s)); constructor; cbn; assumption. }
  rewrite (clear_pending_Inv s1 H1).
  unfold s1, removeEventListener.
  destruct (_onPopState (this s)); reflexivity.
Qed.

Lemma Inv_reached (s : State) :
  Inv s ->
  Inv (mkState
         (mkWindow (location (window s)) (title_writes (window s))
            (pushed (window s)) [] (next_timer (window s)) (clock (window s))
            (listeners (removeEventListener (_onPopState (this s)) (window s)))
            (next_listener (window s)) (delivered (window s)))
         (this s)).
Proof. intros H. apply Inv_idle; cbn; [apply H | reflexivity]. Qed.

Lemma dispose_Inv (s : State) :
  Inv s ->
  title_returns (this s) JUndefined = true ->
  exists t,
    pending_write JUndefined s = Normal t
    /\ dispose s =
       (mkState
          (mkWindow (location (window s)) (title_writes (window s))
             (pushed (window s)) [t] (next_timer (window s) + 1)
             (clock (window s))
             (listeners
                (removeEventListener (_onPopState (this s)) (window s)))
             (next_listener (window s)) (delivered (window s)))
          (set_writeTimer (Some (next_timer (window s))) (this s)), None).
Proof.
  intros H T. rewrite (dispose_reaches s H).
  destruct (write_Inv JUndefined _ (Inv_reached s H) T)
    as (t & url & _ & Ht & ->).
  exists t. split; [exact Ht | reflexivity].
Qed.

(** When the title function throws on [undefined], [dispose] throws with
    the listener off and the timer cleared, and no write scheduled. *)
Lemma dispose_throws (s : State) :
  Inv s ->
  title_returns (this s) JUndefined = false ->
  exists e,
    dispose s =
    (mkState
       (mkWindow (location (window s)) (title_writes (window s))
          (pushed (window s)) [] (next_timer (window s)) (clock (window s))
          (listeners (removeEventListener (_onPopState (this s)) (window s)))
          (next_listener (window s)) (delivered (window s)))
       (this s), Some e).
Proof.
  intros H T. rewrite (dispose_reaches s H).
  apply (write_throws JUndefined). exact T.
Qed.

Lemma Inv_dispose (s : State) : Inv s -> Inv (fst (dispose s)).
Proof.
  intros H. rewrite (dispose_reaches s H).
  apply Inv_write, Inv_reached, H.
Qed.

(** *** Steps *)

Lemma Inv_step (op : Op) (s : State) : Inv s -> Inv (fst (step op s)).
Proof.
  intros H. destruct op as [uiState | cb | | url ev | d]; cbn [step fst].
  - now apply Inv_write.
  - now apply Inv_onUpdate.
  - now apply Inv_dispose.
  - apply Inv_pop_all.
    destruct H as [Hn Ht Hs]. constructor; cbn; assumption.
  - now apply Inv_elapse.
Qed.

Lemma step_completes (op : Op) (s : State) :
  snd (step op s) = None <-> completes op s = true.
Proof.
  destruct op as [uiState | cb | | url ev | d]; cbn [step completes snd];
    try easy.
  - destruct (title_returns (this s) uiState) eqn:T.
    + destruct (title_returns_Normal _ _ T) as (title & E).
      unfold write. rewrite createURL_normal, E.
      now destruct (setTimeout _ _ _).
    + destruct (write_throws uiState s T) as (e & ->). easy.
  - unfold dispose.
    match goal with
    | |- snd (write JUndefined ?s2) = None <-> _ =>
        change (title_returns (this s) JUndefined)
          with (title_returns (this s2) JUndefined);
        destruct (title_returns (this s2) JUndefined) eqn:T;
        [destruct (title_returns_Normal _ _ T) as (title & E);
         unfold write; rewrite createURL_normal, E;
         now destruct (setTimeout _ _ _)
        |destruct (write_throws JUndefined s2 T) as (e & ->); easy]
    end.
Qed.

Lemma run_nil (s : State) : run [] s = (s, None).
Proof. reflexivity. Qed.

Lemma run_cons (op : Op) (ops : list Op) (s : State) :
  run (op :: ops) s =
  (fst (run ops (fst (step op s))),
   first_error (snd (step op s)) (snd (run ops (fst (step op s))))).
Proof.
  cbn [run]. destruct (step op s) as [s1 e1]. cbn [fst snd].
  now destruct (run ops s1).
Qed.

Lemma run_cons_returned (op : Op) (ops : list Op) (s s1 : State) :
  step op s = (s1, None) -> run (op :: ops) s = run ops s1.
Proof.
  intros E. rewrite run_cons, E. cbn. now destruct (run ops s1).
Qed.

Lemma run_elapse (d : Z) (ops : list Op) (s : State) :
  run (OpElapse d :: ops) s = run ops (elapse d s).
Proof. now apply run_cons_returned. Qed.

Lemma first_error_assoc (e1 e2 e3 : option JsError) :
  first_error e1 (first_error e2 e3) = first_error (first_error e1 e2) e3.
Proof. now destruct e1. Qed.

Lemma run_app (ops1 ops2 : list Op) :
  forall s,
    run (ops1 ++ ops2) s =
    (fst (run ops2 (fst (run ops1 s))),
     first_error (snd (run ops1 s)) (snd (run ops2 (fst (run ops1 s))))).
Proof.
  induction ops1 as [|op ops1 IH]; intros s.
  - cbn. now destruct (run ops2 s).
  - cbn [app]. rewrite !run_cons, IH. cbn [fst snd].
    now rewrite first_error_assoc.
Qed.

Lemma run_app_returned (ops1 ops2 : list Op) (s s1 : State) :
  run ops1 s = (s1, None) -> run (ops1 ++ ops2) s = run ops2 s1.
Proof.
  intros E. rewrite run_app, E. cbn. now destruct (run ops2 s1).
Qed.

Lemma Inv_run (ops : list Op) :
  forall s, Inv s -> Inv (fst (run ops s)).
Proof.
  induction ops as [|op ops IH]; intros s H.
  - exact H.
  - rewrite run_cons. cbn [fst]. now apply IH, Inv_step.
Qed.

Lemma Inv_initial (tf : option (JsValue -> Completion string))
  (wt : option Z) (loc : Location) : Inv (initial tf wt loc).
Proof. apply Inv_idle; cbn; [lia | reflexivity]. Qed.

(** *** What a step leaves alone *)

Lemma outcome_eta (o : Outcome) : o = (fst o, snd o).
Proof. now destruct o. Qed.

(** Whether it returns or throws, [write] touches the timer only. *)
Lemma write_frame (uiState : JsValue) (s : State) :
  same_page s (fst (write uiState s))
  /\ clock (window (fst (write uiState s))) = clock (window s)
  /\ _onPopState (this (fst (write uiState s))) = _onPopState (this s)
  /\ (snd (write uiState s) <> None -> fst (write uiState s) = s).
Proof.
  unfold write. rewrite createURL_normal.
  destruct (title_of (this s) uiState) as [title|e]; cbn [fst snd].
  - unfold setTimeout, clear_pending, clearTimeout, same_page.
    destruct (writeTimer (this s)) as [id|]; [destruct (negb (id =? 0))|];
      cbn; repeat split; intros N; now destruct N.
  - unfold same_page. repeat split.
Qed.

Lemma step_frame (op : Op) (s : State) :
  Inv s ->
  (is_registration op = false -> listeners (window s) = [] ->
   listeners (window (fst (step op s))) = []
   /\ delivered (window (fst (step op s))) = delivered (window s))
  /\ (is_event op = true -> timers (window s) = [] ->
      timers (window (fst (step op s))) = []
      /\ pushed (window (fst (step op s))) = pushed (window s)
      /\ snd (step op s) = None).
Proof.
  intros H.
  destruct op as [uiState | cb | | url ev | d];
    cbn [step is_registration is_event fst snd];
    (split; [|try discriminate]); try discriminate.
  - intros _ L.
    destruct (write_frame uiState s) as ((_ & _ & _ & L' & D' & _) & _).
    now rewrite L', D'.
  - intros _ L. rewrite (dispose_reaches s H).
    match goal with
    | |- context [write JUndefined ?s2] =>
        destruct (write_frame JUndefined s2) as ((_ & _ & _ & L' & D' & _) & _)
    end.
    rewrite L', D'. cbn. split; [|reflexivity]. unfold removeEventListener.
    destruct (_onPopState (this s)); cbn; now rewrite L.
  - intros _ L. unfold popstate. cbn. rewrite L. cbn. auto.
  - intros _ T.
    set (s0 := mkState (set_location (parse_url url) (window s)) (this s)).
    assert (H0 : Inv s0).
    { destruct H as [Hn Ht Hs]. constructor; cbn; assumption. }
    split; [|split; [|reflexivity]].
    + apply (Inv_pop_all ev _ s0 H0). now left.
    + unfold popstate.
      destruct (pop_all_window ev (listeners (window s0)) s0) as (ts & ->).
      reflexivity.
  - intros _ L.
    destruct (Inv_cases s H) as [T | (t & T & Hw & Hid)].
    + rewrite (elapse_idle d s T). cbn. auto.
    + destruct (Z.lt_ge_cases (clock (window s) + Z.max 0 d) (timer_due t)).
      * rewrite (elapse_waiting d s t T) by assumption. cbn. auto.
      * rewrite (elapse_firing d s t T) by assumption.
        unfold run_task; destruct (has_title _); cbn; auto.
  - intros _ T. rewrite (elapse_idle d s T). cbn. auto.
Qed.

(** With nothing pending, the events of the page push nothing. *)
Lemma idle_events (ops : list Op) :
  forall s, Inv s -> timers (window s) = [] ->
    forallb is_event ops = true ->
    exists s', run ops s = (s', None)
               /\ pushed (window s') = pushed (window s).
Proof.
  induction ops as [|op ops IH]; intros s H T Hev.
  - exists s. split; reflexivity.
  - cbn [forallb] in Hev. apply andb_prop in Hev as [Hop Hops].
    destruct (step_frame op s H) as (_ & F).
    destruct (F Hop T) as (T1 & P1 & R1).
    destruct (IH _ (Inv_step op s H) T1 Hops) as (s' & E & P).
    exists s'. split; [|congruence].
    rewrite (run_cons_returned op ops s (fst (step op s))); [exact E|].
    rewrite <- R1. apply outcome_eta.
Qed.

(** With no listener and no new registration, no callback is called. *)
Lemma deaf_page (ops : list Op) :
  forall s, Inv s -> listeners (window s) = [] ->
    forallb (fun op => negb (is_registration op)) ops = true ->
    delivered (window (fst (run ops s))) = delivered (window s).
Proof.
  induction ops as [|op ops IH]; intros s H L Hev.
  - reflexivity.
  - cbn [forallb] in Hev. apply andb_prop in Hev as [Hop Hops].
    apply negb_true_iff in Hop.
    destruct (step_frame op s H) as (F & _).
    destruct (F Hop L) as [L1 D1].
    rewrite run_cons. cbn [fst].
    now rewrite (IH _ (Inv_step op s H) L1 Hops).
Qed.

(** *** Addresses with and without a query *)

Lemma parse_url_bare (loc : Location) :
  wf_location loc = true ->
  parse_url (origin_path loc ++ hash loc) = with_search "" loc.
Proof.
  intros Hwf.
  apply (parse_url_origin_path loc "" Hwf); reflexivity.
Qed.

Lemma parse_url_query (loc : Location) (q : string) :
  wf_location loc = true ->
  occurs "#" q = false ->
  parse_url (origin_path loc ++ "?" ++ q ++ hash loc)
  = with_search (if (q =? "")%string then "" else "?" ++ q) loc.
Proof.
  intros Hwf Hq.
  change (origin_path loc ++ "?" ++ q ++ hash loc)
    with (origin_path loc ++ String "?" (q ++ hash loc)).
  change (String "?" (q ++ hash loc)) with (String "?" q ++ hash loc).
  rewrite (parse_url_origin_path loc (String "?" q) Hwf);
    [|exact Hq|reflexivity].
  reflexivity.
Qed.

Lemma query_of_search (q : string) :
  slice 1 (if (q =? "")%string then "" else "?" ++ q) = q.
Proof.
  destruct (String.eqb_spec q ""); [now subst | reflexivity].
Qed.

Lemma origin_path_no_query (loc : Location) :
  wf_location loc = true -> occurs "?" (origin_path loc) = false.
Proof.
  intros Hwf.
  destruct (wf_location_parts _ Hwf)
    as ((scheme & Hproto & _ & Hscheme) & Hhost & _ & Hport & _ & Hpath & _).
  apply no_delimiter_parts in Hscheme as (_ & Hs & _).
  apply no_delimiter_parts in Hhost as (_ & Hh & _).
  destruct (port_prefix_parts _ Hport) as (_ & Hp & _).
  unfold origin_path. rewrite Hproto, !occurs_append, Hs, Hh, Hp, Hpath.
  reflexivity.
Qed.

(** *** Bursts of writes *)

Lemma last_cons {A : Type} (x a : A) (l : list A) :
  last (x :: l) a = last l x.
Proof.
  revert x a. induction l as [|y l IH]; intros x a; [reflexivity|].
  change (last (x :: y :: l) a) with (last (y :: l) a).
  now rewrite !IH.
Qed.

Lemma run_burst (ws : list (Z * JsValue)) :
  forall a s, Inv s ->
    title_returns (this s) a = true ->
    (forall d x, In (d, x) ws -> title_returns (this s) x = true) ->
    (forall d x, In (d, x) ws -> 0 <= d < writeTimeout (this s)) ->
    exists s' t url title,
      run (OpWrite a :: burst ws) s = (s', None)
      /\ Inv s' /\ same_page s s'
      /\ timers (window s') = [t]
      /\ timer_due t = clock (window s') + Z.max 0 (writeTimeout (this s))
      /\ createURL (location (window s)) (last (map snd ws) a) = Normal url
      /\ title_of (this s) (last (map snd ws) a) = Normal title
      /\ timer_task t = mkTask title (last (map snd ws) a) url.
Proof.
  induction ws as [|[d x] ws IH]; intros a s H Ta Tws Hd.
  - destruct (write_Inv a s H Ta) as (t & url & Hurl & Ht & E).
    pose proof (Inv_write a s H) as H'. rewrite E in H'. cbn [fst] in H'.
    destruct (pending_write_fields _ _ _ Ht)
      as (_ & Hdue & url' & title & Hurl' & Htitle & Htask).
    cbn [burst]. rewrite (run_cons_returned (OpWrite a) [] s _ E), run_nil.
    eexists _, t, url', title. split; [reflexivity|]. split; [exact H'|].
    split; [repeat split|]. cbn. auto.
  - destruct (write_Inv a s H Ta) as (t & url & Hurl & Ht & E).
    pose proof (Inv_write a s H) as H1. rewrite E in H1. cbn [fst] in H1.
    remember (fst (write a s)) as s1 eqn:Es1. rewrite E in Es1.
    cbn [fst] in Es1. rewrite <- Es1 in H1, E.
    destruct (pending_write_fields _ _ _ Ht) as (_ & Hdue & _).
    assert (Hrange : 0 <= d < writeTimeout (this s))
      by (apply (Hd d x); now left).
    assert (T1 : timers (window s1) = [t]) by (now subst s1).
    assert (C1 : clock (window s1) + Z.max 0 d < timer_due t)
      by (subst s1; cbn; lia).
    pose proof (Inv_elapse d s1 H1) as H2.
    rewrite (elapse_waiting d s1 t T1 C1) in H2.
    destruct (IH x _ H2)
      as (s' & t' & url' & title' & Erun & H' & Hsame & Ht' & Hdue' & Hurl'
          & Htitle' & Htask').
    { subst s1. cbn. apply (Tws d x). now left. }
    { intros d' x' Hin. subst s1. cbn. apply (Tws d' x'). now right. }
    { intros d' x' Hin. subst s1. cbn. apply (Hd d' x'). now right. }
    exists s', t', url', title'.
    cbn [burst].
    rewrite (run_cons_returned (OpWrite a) _ s s1 E), run_elapse.
    rewrite (elapse_waiting d s1 t T1 C1).
    split; [exact Erun|]. split; [exact H'|].
    cbn [map snd]. rewrite last_cons.
    subst s1. cbn in *.
    split; [exact Hsame|]. auto 6.
Qed.

(** *** Timers, history and callbacks *)

(** C4: the invariant of the pending write is kept by every operation:
    a call of [write], [onUpdate] or [dispose], whether it returns or
    throws, a navigation event and the passing of time (with the firing of
    the scheduled write) all leave one pending timer at most, the one
    [writeTimer] names; after a [write] that returns the only pending timer
    is the new one, whatever was pending before has been cancelled.  A call
    throws only when the title function does. *)
Theorem single_pending_write (s : State) (op : Op) :
  Inv s ->
  exists s' r,
    step op s = (s', r)
    /\ Inv s'
    /\ (List.length (timers (window s')) <= 1)%nat
    /\ (r = None <-> completes op s = true)
    /\ (forall uiState, op = OpWrite uiState -> r = None ->
        exists t, pending_write uiState s = Normal t
                  /\ timers (window s') = [t]).
Proof.
  intros H. pose proof (Inv_step op s H) as H'.
  exists (fst (step op s)), (snd (step op s)).
  split; [apply outcome_eta|]. split; [exact H'|].
  split; [apply H'|]. split; [apply step_completes|].
  intros uiState -> R. cbn [step] in *.
  destruct (title_returns (this s) uiState) eqn:T.
  - destruct (write_Inv uiState s H T) as (t & url & _ & Ht & E).
    rewrite E. now exists t.
  - destruct (write_throws uiState s T) as (e & E).
    rewrite E in R. discriminate R.
Qed.

(** Every state the page can get into from a fresh instance has one pending
    write at most. *)
Lemma reachable_single_pending
  (tf : option (JsValue -> Completion string)) (wt : option Z)
  (loc : Location) (ops : list Op) :
  (List.length (timers (window (fst (run ops (initial tf wt loc))))) <= 1)%nat.
Proof. apply (Inv_run ops _ (Inv_initial tf wt loc)). Qed.

(** C6: on a navigation event without a state payload ([event.state] is
    [null], or falsy at all) every registered callback is called, once, with
    what [read()] returns at that moment, that is with the parsed query of
    the address the page is at when the event fires. *)
Theorem fallback_on_stateless_navigation (s : State) (url : string)
  (ev : JsValue) :
  truthy ev = false ->
  exists s',
    step (OpPopState url ev) s = (s', None)
    /\ read s' = read_location (parse_url url)
    /\ delivered (window s') =
       (delivered (window s)
        ++ map (fun l => (listener_cb l, read_location (parse_url url)))
             (listeners (window s)))%list.
Proof.
  intros Hev. eexists. split; [reflexivity|].
  unfold popstate, read.
  set (s0 := mkState (set_location (parse_url url) (window s)) (this s)).
  destruct (pop_all_window ev (listeners (window s0)) s0) as (ts & ->).
  rewrite Hev. split; reflexivity.
Qed.

(** C2: calls of [write] that follow each other at less than [writeTimeout]
    push one entry, when the quiet period is over, and it is the entry of
    the last call: for [write(a)] then [write(b)], [ws] is [[(d, b)]], the
    one entry pushed carries [b] and none carries [a].  The calls are calls
    that return: the title function, if there is one, returns on the states
    written. *)
Theorem debounce_coalescing (s : State) (a : JsValue)
  (ws : list (Z * JsValue)) (d' : Z) :
  Inv s ->
  title_returns (this s) a = true ->
  (forall d x, In (d, x) ws -> title_returns (this s) x = true) ->
  (forall d x, In (d, x) ws -> 0 <= d < writeTimeout (this s)) ->
  writeTimeout (this s) <= d' ->
  exists s' e,
    run (OpWrite a :: burst ws ++ [OpElapse d']) s = (s', None)
    /\ entry_of (last (map snd ws) a) s = Normal e
    /\ pushed (window s') = (pushed (window s) ++ [e])%list
    /\ timers (window s') = [].
Proof.
  intros H Ta Tws Hd Hd'.
  destruct (run_burst ws a s H Ta Tws Hd)
    as (s1 & t & url & title & E & H1 & Hsame & T & Hdue & Hurl & Htitle
        & Htask).
  destruct Hsame as (_ & _ & P & _).
  change (OpWrite a :: burst ws ++ [OpElapse d'])
    with ((OpWrite a :: burst ws) ++ [OpElapse d'])%list.
  rewrite (run_app_returned _ _ _ _ E), run_elapse, run_nil.
  rewrite (elapse_firing d' s1 t T) by lia.
  eexists _, _. split; [reflexivity|].
  unfold entry_of. rewrite Hurl, Htitle, Htask. cbn [bind].
  split; [reflexivity|].
  unfold run_task; destruct (has_title _); cbn; now rewrite P.
Qed.

(** C9: when [titleFromUIState] gives a non-empty title for [uiState], the
    write of [uiState] that fires assigns the document title once, to that
    title, and pushes an entry with that title. *)
Theorem title_application (s : State) (uiState : JsValue)
  (f : JsValue -> Completion string) (title : string) (d : Z) :
  Inv s ->
  titleFromUIState (this s) = Some f ->
  f uiState = Normal title ->
  title <> "" ->
  writeTimeout (this s) <= d ->
  exists s' url,
    run [OpWrite uiState; OpElapse d] s = (s', None)
    /\ createURL (location (window s)) uiState = Normal url
    /\ title_writes (window s') = (title_writes (window s) ++ [title])%list
    /\ pushed (window s') =
       (pushed (window s) ++ [mkEntry uiState title url])%list.
Proof.
  intros H Hf Hfx Hne Hd.
  assert (Ht0 : title_of (this s) uiState = Normal (Some title)).
  { unfold title_of. now rewrite Hf, Hfx. }
  assert (T : title_returns (this s) uiState = true).
  { unfold title_returns. now rewrite Ht0. }
  destruct (write_Inv uiState s H T) as (t & url & Hurl & Ht & E).
  destruct (pending_write_fields _ _ _ Ht)
    as (_ & Hdue & url' & title' & Hurl' & Htitle' & Htask).
  rewrite Hurl in Hurl'. injection Hurl' as <-.
  rewrite Ht0 in Htitle'. injection Htitle' as <-.
  rewrite (run_cons_returned (OpWrite uiState) _ s _ E), run_elapse, run_nil.
  match goal with
  | |- context [elapse d ?s1] =>
      rewrite (elapse_firing d s1 t eq_refl) by (cbn; lia)
  end.
  eexists _, url. split; [reflexivity|]. split; [exact Hurl|].
  rewrite Htask. unfold run_task. cbn.
  apply String.eqb_neq in Hne. rewrite Hne. cbn. auto.
Qed.

(** C3: a write of [a] is pending when a navigation event with a (truthy)
    state payload [b] comes in: the handler cancels the timer, so that no
    later event of the page pushes an entry for [a], and the registered
    callback is called with [b] itself. *)
Theorem cancellation_on_navigate (s : State) (a b : JsValue) (l : Listener)
  (d : Z) (url : string) (ops : list Op) :
  Inv s ->
  title_returns (this s) a = true ->
  listeners (window s) = [l] ->
  0 <= d < writeTimeout (this s) ->
  truthy b = true ->
  forallb is_event ops = true ->
  exists s0 t s1 s2,
    run [OpWrite a; OpElapse d] s = (s0, None)
    /\ timers (window s0) = [t] /\ task_state (timer_task t) = a
    /\ step (OpPopState url b) s0 = (s1, None)
    /\ timers (window s1) = []
    /\ delivered (window s1)
       = (delivered (window s) ++ [(listener_cb l, b)])%list
    /\ run ops s1 = (s2, None)
    /\ pushed (window s2) = pushed (window s).
Proof.
  intros H Ta L Hd Hb Hev.
  destruct (write_Inv a s H Ta) as (t & u & Hurl & Ht & E).
  pose proof (Inv_write a s H) as Hw.
  remember (fst (write a s)) as sw eqn:Esw. rewrite E in Esw.
  cbn [fst] in Esw. rewrite <- Esw in E.
  destruct (pending_write_fields _ _ _ Ht)
    as (_ & Hdue & u' & title & _ & _ & Htask).
  assert (T : timers (window sw) = [t]) by now subst sw.
  assert (C : clock (window sw) + Z.max 0 d < timer_due t)
    by (subst sw; cbn; lia).
  pose proof (Inv_elapse d sw Hw) as H0.
  pose proof (elapse_waiting d sw t T C) as E0.
  remember (elapse d sw) as s0 eqn:Es0.
  assert (F0 : timers (window s0) = [t]
               /\ pushed (window s0) = pushed (window s)
               /\ delivered (window s0) = delivered (window s)
               /\ listeners (window s0) = [l]).
  { rewrite E0. subst sw. cbn. auto. }
  clear E0. destruct F0 as (T0 & P0 & D0 & L0).
  set (sn := mkState (set_location (parse_url url) (window s0)) (this s0)).
  assert (Hn : Inv sn).
  { destruct H0 as [Hn Ht0 Hs]. constructor; cbn; assumption. }
  destruct (Inv_pop_all b (listeners (window sn)) sn Hn) as [H1 T1].
  destruct (pop_all_window b (listeners (window sn)) sn) as (ts & W1).
  exists s0, t, (popstate b sn).
  destruct (idle_events ops (popstate b sn) H1) as (s2 & E2 & P2).
  { apply T1. right. cbn. rewrite L0. discriminate. }
  { exact Hev. }
  exists s2.
  rewrite (run_cons_returned (OpWrite a) _ s sw E), run_elapse, run_nil.
  rewrite <- Es0.
  split; [reflexivity|]. split; [exact T0|].
  split; [now rewrite Htask|]. split; [reflexivity|].
  split; [apply T1; right; cbn; rewrite L0; discriminate|].
  split; [|split; [exact E2|]].
  - unfold popstate. rewrite W1. cbn. now rewrite L0, D0, Hb.
  - rewrite P2. unfold popstate. rewrite W1. exact P0.
Qed.

(** *** [dispose] and the title function *)

(** When the title function is absent, or returns on [undefined],
    [dispose] takes the listener off, cancels what was pending and schedules
    a write of [undefined]; once [writeTimeout] has gone by the page is at
    the address without a query, and no callback is called any more unless
    [onUpdate] is called again. *)
Lemma dispose_clears_query_titled (s : State) (d : Z) (ops : list Op) :
  Inv s ->
  registered_once s ->
  wf_location (location (window s)) = true ->
  title_returns (this s) JUndefined = true ->
  writeTimeout (this s) <= d ->
  forallb (fun op => negb (is_registration op)) ops = true ->
  exists s1 t e,
    dispose s = (s1, None)
    /\ listeners (window s1) = []
    /\ pending_write JUndefined s = Normal t
    /\ timers (window s1) = [t]
    /\ entry_of JUndefined s = Normal e
    /\ entry_url e
       = origin_path (location (window s)) ++ hash (location (window s))
    /\ pushed (window (elapse d s1)) = (pushed (window s) ++ [e])%list
    /\ location (window (elapse d s1)) = with_search "" (location (window s))
    /\ search (location (window (elapse d s1))) = ""
    /\ delivered (window (fst (run ops s1))) = delivered (window s).
Proof.
  intros H R Hwf T Hd Hops.
  destruct (dispose_Inv s H T) as (t & Ht & E).
  pose proof (Inv_dispose s H) as H1.
  remember (fst (dispose s)) as s1 eqn:Es1. rewrite E in Es1.
  cbn [fst] in Es1. rewrite <- Es1 in E.
  destruct (pending_write_fields _ _ _ Ht)
    as (_ & Hdue & u & title & Hurl & Htitle & Htask).
  rewrite createURL_normal in Hurl. cbn in Hurl. injection Hurl as <-.
  assert (L1 : listeners (window s1) = []).
  { subst s1. cbn. red in R. unfold removeEventListener.
    destruct (_onPopState (this s)) as [l|]; cbn; rewrite R; cbn;
      [now rewrite Nat.eqb_refl | reflexivity]. }
  assert (T1 : timers (window s1) = [t]) by now subst s1.
  assert (D1 : delivered (window s1) = delivered (window s)) by now subst s1.
  pose proof (deaf_page ops s1 H1 L1 Hops) as D2.
  set (bare := origin_path (location (window s)) ++ hash (location (window s))).
  exists s1, t, (mkEntry JUndefined (title_or_empty title) bare).
  split; [exact E|]. split; [exact L1|]. split; [exact Ht|].
  split; [exact T1|].
  split; [unfold entry_of; now rewrite createURL_normal, Htitle|].
  split; [reflexivity|].
  rewrite (elapse_firing d s1 t T1) by (subst s1; cbn; lia).
  rewrite Htask. unfold run_task. cbn [task_title task_state task_url].
  assert (P : forall w, location (pushState JUndefined (title_or_empty title)
                                    bare w)
                        = with_search "" (location (window s))).
  { intros w. cbn. now apply parse_url_bare. }
  split; [destruct (has_title _); subst s1; reflexivity|].
  split; [destruct (has_title _); cbn [window]; apply P|].
  split; [destruct (has_title _); cbn [window]; now rewrite P|].
  congruence.
Qed.

(** When the title function throws on [undefined], [dispose] throws after
    it has taken the listener off and cleared the timer: no write is
    scheduled, and however long one waits the address and the history stay
    as they are. *)
Lemma dispose_throws_keeps_query (s : State) :
  Inv s ->
  title_returns (this s) JUndefined = false ->
  exists s1 e,
    dispose s = (s1, Some e)
    /\ timers (window s1) = []
    /\ listeners (window s1)
       = listeners (removeEventListener (_onPopState (this s)) (window s))
    /\ forall d,
         location (window (elapse d s1)) = location (window s)
         /\ pushed (window (elapse d s1)) = pushed (window s).
Proof.
  intros H T. destruct (dispose_throws s H T) as (e & E).
  eexists _, e. split; [exact E|]. split; [reflexivity|].
  split; [reflexivity|].
  intros d. now rewrite elapse_idle.
Qed.

(** C7, on a title function that reads the state it is given: on the
    example page, whose address has the query [?query=old], [dispose()]
    throws a [TypeError] out of [write()], where the title function is
    called with [undefined].  The listener is off and nothing is pending,
    so that no write ever clears the query: the address and the history are
    the same after any time. *)
Theorem dispose_fails_on_reading_title :
  exists s1,
    step OpDispose Examples.reading = (s1, Some TypeError)
    /\ listeners (window s1) = []
    /\ timers (window s1) = []
    /\ forall d,
         search (location (window (elapse d s1))) = "?query=old"
         /\ pushed (window (elapse d s1)) = [].
Proof.
  destruct (dispose_throws_keeps_query Examples.reading)
    as (s1 & e & E & T1 & L1 & Hd).
  - constructor; cbn; [lia | intros t [] | lia].
  - reflexivity.
  - exists s1. destruct e. split; [exact E|]. split; [exact L1|].
    split; [exact T1|].
    intros d. destruct (Hd d) as [-> ->]. split; reflexivity.
Qed.

(** *** Addresses *)

(** C10: [createURL] does not throw.  On [undefined], the state of the last
    write of [dispose], the guard [!uiState] answers before [Object.keys] is
    called, and the address without a query comes back; [Object.keys] would
    throw there, but whenever the guard lets it run it returns. *)
Theorem createURL_absent_state (loc : Location) :
  createURL loc JUndefined = Normal (origin_path loc ++ hash loc)
  /\ object_keys JUndefined = Throw TypeError
  /\ (forall uiState, truthy uiState = true ->
      exists keys, object_keys uiState = Normal keys)
  /\ (forall uiState, exists url, createURL loc uiState = Normal url).
Proof.
  split; [apply createURL_normal|]. split; [reflexivity|].
  split.
  - intros [| | b | z | s | items | fields] T; try discriminate T;
      cbn; eauto.
  - intros uiState. rewrite createURL_normal. eauto.
Qed.

(** *** With the laws of the serialization *)

Context {QSL : QueryStringLaws QS}.

(** C5: for the mapping without keys [createURL] spells the address without
    a query: protocol, host, port, path and fragment as they are, no [?] in
    front of the fragment, and the browser finds no query in it.  For a
    mapping with keys the query of the address is the serialization of the
    mapping, and nothing else of the address changes. *)
Theorem createURL_query (loc : Location) :
  wf_location loc = true ->
  (createURL loc empty_mapping = Normal (origin_path loc ++ hash loc)
   /\ occurs "?" (origin_path loc) = false
   /\ parse_url (origin_path loc ++ hash loc) = with_search "" loc)
  /\ (forall fields, fields <> [] ->
      exists url,
        createURL loc (JObj fields) = Normal url
        /\ url = origin_path loc ++ "?" ++ qs_stringify (JObj fields)
                 ++ hash loc
        /\ slice 1 (search (parse_url url)) = qs_stringify (JObj fields)
        /\ with_search "" (parse_url url) = with_search "" loc).
Proof.
  intros Hwf. split.
  - split; [apply createURL_normal|].
    split; [now apply origin_path_no_query | now apply parse_url_bare].
  - intros fields Hne. eexists. split; [apply createURL_normal|].
    rewrite is_empty_mapping. destruct fields as [|kv fields]; [easy|].
    split; [reflexivity|].
    rewrite (parse_url_query loc _ Hwf (stringify_url_safe _)).
    split; [apply query_of_search | reflexivity].
Qed.

Lemma read_location_createURL (loc : Location) (s : JsValue) (url : string) :
  wf_location loc = true ->
  supported s = true ->
  createURL loc s = Normal url ->
  read_location (parse_url url) = s.
Proof.
  intros Hwf Hs. rewrite createURL_normal. intros [= <-].
  destruct s as [| | | | | |fields]; try discriminate Hs.
  rewrite is_empty_mapping. unfold read_location.
  destruct fields as [|kv fields]; cbv iota.
  - rewrite (parse_url_bare loc Hwf). cbn. apply parse_empty.
  - change (String "?" (qs_stringify (JObj (kv :: fields)) ++ hash loc))
      with ("?" ++ qs_stringify (JObj (kv :: fields)) ++ hash loc).
    rewrite (parse_url_query loc _ Hwf (stringify_url_safe _)).
    cbn [search with_search]. rewrite query_of_search.
    now apply parse_stringify.
Qed.

(** C1: take a supported state [s], let [createURL] spell the address for
    it and let the page be at that address: [read()] returns [s]. *)
Theorem read_after_createURL (loc : Location) (s : JsValue) :
  wf_location loc = true ->
  supported s = true ->
  exists url,
    createURL loc s = Normal url
    /\ read_location (parse_url url) = s.
Proof.
  intros Hwf Hs. destruct (createURL loc s) as [url|e] eqn:E.
  - exists url. split; [reflexivity|].
    now apply (read_location_createURL loc s url).
  - rewrite createURL_normal in E. discriminate E.
Qed.

(** The same through the class: the write of a supported state fires, and
    [read()] returns that state. *)
Lemma read_after_write (s : State) (uiState : JsValue) (d : Z) :
  Inv s ->
  title_returns (this s) uiState = true ->
  wf_location (location (window s)) = true ->
  supported uiState = true ->
  writeTimeout (this s) <= d ->
  exists s', run [OpWrite uiState; OpElapse d] s = (s', None)
             /\ read s' = uiState.
Proof.
  intros H T Hwf Hs Hd.
  destruct (write_Inv uiState s H T) as (t & url & Hurl & Ht & E).
  destruct (pending_write_fields _ _ _ Ht)
    as (_ & Hdue & url' & title & Hurl' & _ & Htask).
  rewrite Hurl in Hurl'. injection Hurl' as <-.
  pose proof (read_location_createURL _ _ _ Hwf Hs Hurl) as R.
  rewrite (run_cons_returned (OpWrite uiState) _ s _ E), run_elapse, run_nil.
  match goal with
  | |- context [elapse d ?s1] =>
      rewrite (elapse_firing d s1 t eq_refl) by (cbn; lia)
  end.
  eexists. split; [reflexivity|].
  rewrite Htask. unfold run_task, read.
  destruct (has_title _); exact R.
Qed.

(** C8: [read()] is a function of the address alone, it returns a value and
    changes nothing.  At an address without a query, with an empty query, or
    with a query that is the serialization of no value, it returns the
    empty mapping. *)
Theorem read_degrades (loc : Location) :
  wf_location loc = true ->
  read_location (parse_url (origin_path loc ++ hash loc)) = empty_mapping
  /\ read_location (parse_url (origin_path loc ++ "?" ++ hash loc))
     = empty_mapping
  /\ (forall q, occurs "#" q = false -> (forall v, qs_stringify v <> q) ->
      read_location (parse_url (origin_path loc ++ "?" ++ q ++ hash loc))
      = empty_mapping)
  /\ (forall s, search (location (window s)) = "" -> read s = empty_mapping).
Proof.
  intros Hwf. unfold read, read_location. repeat split.
  - rewrite (parse_url_bare loc Hwf). apply parse_empty.
  - change (origin_path loc ++ "?" ++ hash loc)
      with (origin_path loc ++ "?" ++ "" ++ hash loc).
    rewrite (parse_url_query loc "" Hwf eq_refl). apply parse_empty.
  - intros q Hq Hout. rewrite (parse_url_query loc q Hwf Hq).
    cbn [search with_search]. rewrite query_of_search.
    now apply parse_unparseable.
  - intros s ->. apply parse_empty.
Qed.

End Properties.

(** ** The theorems on the example page *)

Module Witnesses.
Import Examples.

Lemma Inv_started : Inv started.
Proof. constructor; cbn; [lia | intros t [] | lia]. Qed.

(** What the model computes on the page. *)

Example createURL_shop_phones :
  createURL (QS := RefCodec.ref_qs) shop phones
  = Normal ("https://shop.example:8080/search"
            ++ "?ok7175657279.s70686f6e65.k70616765.np0."
            ++ "k726566696e656d656e744c697374.ok6272616e64."
            ++ "as4170706c65.s53616d73756e67.eee" ++ "#top").
Proof. reflexivity. Qed.

Example createURL_shop_empty :
  createURL (QS := RefCodec.ref_qs) shop empty_mapping
  = Normal "https://shop.example:8080/search#top"
  /\ createURL (QS := RefCodec.ref_qs) shop JUndefined
     = Normal "https://shop.example:8080/search#top".
Proof. split; reflexivity. Qed.

Example two_writes_one_entry :
  exists s,
    run (QS := RefCodec.ref_qs)
      [OpWrite phones; OpElapse 399; OpWrite tablets; OpElapse 400] started
    = (s, None)
    /\ pushed (window s)
       = [mkEntry tablets "Search"
            "https://shop.example:8080/search?ok7175657279.s7461626c6574.e#top"]
    /\ title_writes (window s) = ["Search"]
    /\ read (QS := RefCodec.ref_qs) s = tablets.
Proof. eexists. split; [reflexivity|]. repeat split. Qed.

Example two_writes_apart_two_entries :
  exists s,
    run (QS := RefCodec.ref_qs)
      [OpWrite phones; OpElapse 400; OpWrite tablets; OpElapse 400] started
    = (s, None)
    /\ map entry_state (pushed (window s)) = [phones; tablets].
Proof. eexists. split; reflexivity. Qed.

Example navigation_cancels_write :
  exists s,
    run (QS := RefCodec.ref_qs)
      [OpWrite phones; OpElapse 100;
       OpPopState "https://shop.example:8080/search" tablets; OpElapse 1000]
      started
    = (s, None)
    /\ pushed (window s) = []
    /\ delivered (window s) = [(7%nat, tablets)].
Proof. eexists. split; [reflexivity|]. split; reflexivity. Qed.

Example read_garbage :
  read_location (QS := RefCodec.ref_qs)
    (parse_url "https://shop.example:8080/search?%%%#top")
  = empty_mapping.
Proof. reflexivity. Qed.

Lemma read_after_createURL_shop :
  exists url,
    createURL (QS := RefCodec.ref_qs) shop phones = Normal url
    /\ read_location (QS := RefCodec.ref_qs) (parse_url url) = phones.
Proof.
  apply (@read_after_createURL RefCodec.ref_qs RefCodecFacts.ref_qs_laws
           shop phones); reflexivity.
Defined.

Lemma debounce_coalescing_shop :
  exists s' e,
    run (QS := RefCodec.ref_qs)
      [OpWrite phones; OpElapse 100; OpWrite tablets; OpElapse 400] started
    = (s', None)
    /\ entry_of (QS := RefCodec.ref_qs) tablets started = Normal e
    /\ pushed (window s') = (pushed (window started) ++ [e])%list
    /\ timers (window s') = [].
Proof.
  apply (@debounce_coalescing RefCodec.ref_qs started phones
           [(100, tablets)] 400).
  - exact Inv_started.
  - reflexivity.
  - intros d x _. reflexivity.
  - intros d x [E|[]]. inversion E; subst. cbn. lia.
  - cbn. lia.
Defined.

Lemma cancellation_on_navigate_shop :
  exists s0 t s1 s2,
    run (QS := RefCodec.ref_qs) [OpWrite phones; OpElapse 100] started
    = (s0, None)
    /\ timers (window s0) = [t] /\ task_state (timer_task t) = phones
    /\ step (QS := RefCodec.ref_qs)
         (OpPopState "https://shop.example:8080/search" tablets) s0
       = (s1, None)
    /\ timers (window s1) = []
    /\ delivered (window s1)
       = (delivered (window started) ++ [(7%nat, tablets)])%list
    /\ run (QS := RefCodec.ref_qs) [OpElapse 1000] s1 = (s2, None)
    /\ pushed (window s2) = pushed (window started).
Proof.
  apply (@cancellation_on_navigate RefCodec.ref_qs started phones tablets
           (mkListener 0 7) 100 "https://shop.example:8080/search"
           [OpElapse 1000]).
  - exact Inv_started.
  - reflexivity.
  - reflexivity.
  - cbn. lia.
  - reflexivity.
  - reflexivity.
Defined.

Lemma single_pending_write_shop :
  exists s' r,
    step (QS := RefCodec.ref_qs) (OpWrite phones) started = (s', r)
    /\ Inv s'
    /\ (List.length (timers (window s')) <= 1)%nat
    /\ (r = None <-> completes (OpWrite phones) started = true)
    /\ (forall uiState, OpWrite phones = OpWrite uiState -> r = None ->
        exists t,
          pending_write (QS := RefCodec.ref_qs) uiState started = Normal t
          /\ timers (window s') = [t]).
Proof.
  apply (@single_pending_write RefCodec.ref_qs started (OpWrite phones)).
  exact Inv_started.
Defined.

Lemma createURL_query_shop :
  (createURL (QS := RefCodec.ref_qs) shop empty_mapping
   = Normal "https://shop.example:8080/search#top"
   /\ occurs "?" (origin_path shop) = false
   /\ parse_url (origin_path shop ++ hash shop) = with_search "" shop)
  /\ (forall fields, fields <> [] ->
      exists url,
        createURL (QS := RefCodec.ref_qs) shop (JObj fields) = Normal url
        /\ url = origin_path shop ++ "?" ++ RefCodec.stringify (JObj fields)
                 ++ hash shop
        /\ slice 1 (search (parse_url url)) = RefCodec.stringify (JObj fields)
        /\ with_search "" (parse_url url) = with_search "" shop).
Proof.
  apply (@createURL_query RefCodec.ref_qs RefCodecFacts.ref_qs_laws shop).
  reflexivity.
Defined.

Lemma fallback_on_stateless_navigation_shop :
  exists s',
    step (QS := RefCodec.ref_qs) (OpPopState tablets_url JNull) started
    = (s', None)
    /\ read (QS := RefCodec.ref_qs) s' = tablets
    /\ delivered (window s') = [(7%nat, tablets)].
Proof.
  apply (@fallback_on_stateless_navigation RefCodec.ref_qs started
           tablets_url JNull).
  reflexivity.
Defined.

Lemma read_degrades_shop :
  read_location (QS := RefCodec.ref_qs)
    (parse_url "https://shop.example:8080/search#top") = empty_mapping
  /\ read_location (QS := RefCodec.ref_qs)
       (parse_url "https://shop.example:8080/search?#top") = empty_mapping
  /\ read_location (QS := RefCodec.ref_qs)
       (parse_url "https://shop.example:8080/search?%%%#top") = empty_mapping
  /\ (forall s, search (location (window s)) = "" ->
      read (QS := RefCodec.ref_qs) s = empty_mapping).
Proof.
  destruct (@read_degrades RefCodec.ref_qs RefCodecFacts.ref_qs_laws shop
              eq_refl) as (Habsent & Hempty & Hout & Hstate).
  split; [exact Habsent|]. split; [exact Hempty|]. split; [|exact Hstate].
  apply (Hout "%%%"); [reflexivity|].
  intros [| | [] | z | t | items | fields]; discriminate.
Defined.

Lemma title_application_shop :
  exists s' url,
    run (QS := RefCodec.ref_qs) [OpWrite phones; OpElapse 400] started
    = (s', None)
    /\ createURL (QS := RefCodec.ref_qs) (location (window started)) phones
       = Normal url
    /\ title_writes (window s')
       = (title_writes (window started) ++ ["Search"])%list
    /\ pushed (window s') =
       (pushed (window started) ++ [mkEntry phones "Search" url])%list.
Proof.
  apply (@title_application RefCodec.ref_qs started phones search_title
           "Search" 400).
  - exact Inv_started.
  - reflexivity.
  - reflexivity.
  - discriminate.
  - cbn. lia.
Defined.

End Witnesses.

(** * More of the class *)

Section Beyond.

Context {QS : QueryString}.

(** ** A write and its timer *)

(** X1: [write] is not synchronous.  Whatever the state of the instance, the
    call leaves the address, the history, the document title, the listeners
    and the callbacks as they were, and [read()] still returns what it
    returned before.  It returns unless the title function throws, and then
    nothing at all has changed. *)
Theorem write_is_deferred (uiState : JsValue) (s : State) :
  exists s' r,
    write uiState s = (s', r)
    /\ same_page s s'
    /\ clock (window s') = clock (window s)
    /\ read s' = read s
    /\ (r = None <-> title_returns (this s) uiState = true)
    /\ (r <> None -> s' = s).
Proof.
  destruct (write_frame uiState s) as (Hsame & Hclock & _ & Hthrow).
  exists (fst (write uiState s)), (snd (write uiState s)).
  split; [apply outcome_eta|]. split; [exact Hsame|].
  split; [exact Hclock|].
  split; [unfold read; destruct Hsame as (-> & _); reflexivity|].
  split; [apply (step_completes (OpWrite uiState) s) | exact Hthrow].
Qed.

(** The state a write leaves once its timer has fired. *)
Lemma write_fired (uiState : JsValue) (s : State) (d : Z)
  (title : option string) :
  Inv s ->
  title_of (this s) uiState = Normal title ->
  writeTimeout (this s) <= d ->
  exists url,
    createURL (location (window s)) uiState = Normal url
    /\ run [OpWrite uiState; OpElapse d] s =
       (mkState
          (mkWindow (parse_url url)
             (if has_title title
              then title_writes (window s) ++ [title_or_empty title]
              else title_writes (window s))%list
             (pushed (window s)
              ++ [mkEntry uiState (title_or_empty title) url])
             [] (next_timer (window s) + 1)
             (clock (window s) + Z.max 0 d) (listeners (window s))
             (next_listener (window s)) (delivered (window s)))
          (set_writeTimer None (this s)), None).
Proof.
  intros H Htitle Hd.
  assert (T : title_returns (this s) uiState = true).
  { unfold title_returns. now rewrite Htitle. }
  destruct (write_Inv uiState s H T) as (t & url & Hurl & Ht & E).
  destruct (pending_write_fields _ _ _ Ht)
    as (_ & Hdue & url' & title' & Hurl' & Htitle' & Htask).
  rewrite Hurl in Hurl'. injection Hurl' as <-.
  rewrite Htitle in Htitle'. injection Htitle' as <-.
  exists url. split; [exact Hurl|].
  rewrite (run_cons_returned (OpWrite uiState) _ s _ E), run_elapse, run_nil.
  match goal with
  | |- context [elapse d ?s1] =>
      rewrite (elapse_firing d s1 t eq_refl) by (cbn; lia)
  end.
  rewrite Htask. unfold run_task. cbn.
  now destruct (has_title title).
Qed.

(** The state a write leaves while its timer waits. *)
Lemma write_waiting (uiState : JsValue) (s : State) (d : Z) :
  Inv s ->
  title_returns (this s) uiState = true ->
  0 <= d < writeTimeout (this s) ->
  exists t,
    pending_write uiState s = Normal t
    /\ run [OpWrite uiState; OpElapse d] s =
       (mkState
          (mkWindow (location (window s)) (title_writes (window s))
             (pushed (window s)) [t] (next_timer (window s) + 1)
             (clock (window s) + Z.max 0 d) (listeners (window s))
             (next_listener (window s)) (delivered (window s)))
          (set_writeTimer (Some (next_timer (window s))) (this s)), None).
Proof.
  intros H T Hd.
  destruct (write_Inv uiState s H T) as (t & url & Hurl & Ht & E).
  destruct (pending_write_fields _ _ _ Ht) as (_ & Hdue & _).
  exists t. split; [exact Ht|].
  rewrite (run_cons_returned (OpWrite uiState) _ s _ E), run_elapse, run_nil.
  match goal with
  | |- context [elapse d ?s1] =>
      rewrite (elapse_waiting d s1 t eq_refl) by (cbn; lia)
  end.
  reflexivity.
Qed.

Lemma write_then_wait (uiState : JsValue) (s : State) (d : Z) :
  Inv s ->
  title_returns (this s) uiState = true ->
  0 <= d ->
  exists s' e,
    run [OpWrite uiState; OpElapse d] s = (s', None)
    /\ entry_of uiState s = Normal e
    /\ pushed (window s') =
       (if writeTimeout (this s) <=? d
        then pushed (window s) ++ [e]
        else pushed (window s))%list
    /\ List.length (timers (window s')) =
       (if writeTimeout (this s) <=? d then 0%nat else 1%nat).
Proof.
  intros H T Hd. unfold entry_of.
  destruct (title_returns_Normal _ _ T) as (title & Htitle).
  destruct (Z.leb_spec (writeTimeout (this s)) d) as [Hle|Hlt].
  - destruct (write_fired uiState s d title H Htitle Hle) as (url & Hurl & ->).
    rewrite Hurl, Htitle. cbn. eexists _, _. repeat split.
  - destruct (write_waiting uiState s d H T (conj Hd Hlt)) as (t & Ht & ->).
    rewrite createURL_normal, Htitle. cbn. eexists _, _. repeat split.
Qed.

(** X2: the entry of a write is pushed when [writeTimeout] milliseconds have
    gone by since the call, not before: [d] milliseconds after the call the
    history has the entry if and only if [writeTimeout <= d], and until then
    the timer is pending. *)
Theorem write_fires_at_timeout (uiState : JsValue) (s : State) (d : Z) :
  Inv s ->
  title_returns (this s) uiState = true ->
  0 <= d ->
  exists s' e,
    run [OpWrite uiState; OpElapse d] s = (s', None)
    /\ entry_of uiState s = Normal e
    /\ pushed (window s') =
       (if writeTimeout (this s) <=? d
        then pushed (window s) ++ [e]
        else pushed (window s))%list
    /\ List.length (timers (window s')) =
       (if writeTimeout (this s) <=? d then 0%nat else 1%nat).
Proof. apply write_then_wait. Qed.

(** X3: an instance built without the option [writeTimeout] waits 400
    milliseconds, one built with it waits that long: on a page that has just
    loaded, the first write is in the history [d] milliseconds later exactly
    when the configured delay, 400 by default, is [d] at most. *)
Theorem constructor_delay (tf : option (JsValue -> Completion string))
  (wt : option Z) (loc : Location) (uiState : JsValue) (d : Z) :
  title_returns (this (initial tf wt loc)) uiState = true ->
  0 <= d ->
  exists s' e,
    run [OpWrite uiState; OpElapse d] (initial tf wt loc) = (s', None)
    /\ entry_of uiState (initial tf wt loc) = Normal e
    /\ pushed (window s') =
       if match wt with Some t => t | None => 400 end <=? d
       then [e] else [].
Proof.
  intros T Hd.
  destruct (write_then_wait uiState _ d (Inv_initial tf wt loc) T Hd)
    as (s' & e & E & He & P & _).
  exists s', e. split; [exact E|]. split; [exact He|].
  rewrite P. cbn. now destruct wt; destruct (_ <=? d).
Qed.

(** X4: without a title function, or when it returns the empty string, the
    write that fires does not touch the document title and pushes its entry
    with the empty title. *)
Theorem untitled_write (uiState : JsValue) (s : State) (d : Z)
  (title : option string) :
  Inv s ->
  title_of (this s) uiState = Normal title ->
  has_title title = false ->
  writeTimeout (this s) <= d ->
  exists s' url,
    run [OpWrite uiState; OpElapse d] s = (s', None)
    /\ createURL (location (window s)) uiState = Normal url
    /\ title_writes (window s') = title_writes (window s)
    /\ pushed (window s')
       = (pushed (window s) ++ [mkEntry uiState "" url])%list.
Proof.
  intros H Htitle Ht Hd.
  destruct (write_fired uiState s d title H Htitle Hd) as (url & Hurl & ->).
  eexists _, url. split; [reflexivity|]. split; [exact Hurl|].
  cbn. rewrite Ht. split; [reflexivity|].
  destruct title as [t|]; [|reflexivity].
  cbn in Ht. apply negb_false_iff, String.eqb_eq in Ht. now subst.
Qed.

(** ** The address [createURL] builds *)

Lemma length_index_keys (n : nat) : List.length (index_keys n) = n.
Proof. unfold index_keys. now rewrite length_map, length_seq. Qed.

Lemma is_empty_state_keyless (v : JsValue) : is_empty_state v = keyless v.
Proof.
  unfold is_empty_state.
  destruct v as [| | b | z | s | items | fields]; cbn;
    rewrite ?length_index_keys, ?length_map.
  - reflexivity.
  - reflexivity.
  - now destruct b.
  - now destruct (z =? 0).
  - now destruct s.
  - now destruct items.
  - now destruct fields.
Qed.

Lemma append_cancel_l (a b c : string) : a ++ b = a ++ c -> b = c.
Proof.
  induction a as [|x a IH]; cbn; intros H; [exact H|].
  injection H as H. now apply IH.
Qed.

(** X5: which states get an address without a query.  [createURL] leaves the
    query out exactly for the values that are falsy or have no key of their
    own ([undefined], [null], booleans, numbers, the empty string, the empty
    array, the mapping without keys); for every other value the address has
    [?] and the serialization in front of the fragment. *)
Theorem createURL_by_keys (loc : Location) (v : JsValue) :
  createURL loc v =
  Normal (if keyless v
          then origin_path loc ++ hash loc
          else origin_path loc ++ "?" ++ qs_stringify v ++ hash loc)
  /\ (createURL loc v = Normal (origin_path loc ++ hash loc)
      <-> keyless v = true).
Proof.
  rewrite createURL_normal, is_empty_state_keyless.
  split; [reflexivity|].
  destruct (keyless v); split; intros H; try reflexivity; try discriminate H.
  injection H as H. apply append_cancel_l in H.
  apply (f_equal String.length) in H. cbn in H.
  rewrite length_append in H. lia.
Qed.

Lemma createURL_with_search (q : string) (loc : Location) (v : JsValue) :
  createURL (with_search q loc) v = createURL loc v.
Proof. now rewrite !createURL_normal. Qed.

Lemma wf_with_search (q : string) (loc : Location) :
  wf_location loc = true ->
  starts_with "?" q || (q =? "")%string = true ->
  (q =? "?")%string = false ->
  occurs "#" q = false ->
  wf_location (with_search q loc) = true.
Proof.
  unfold wf_location. cbn [with_search protocol hostname port pathname search
                           hash].
  intros H Hq1 Hq2 Hq3.
  repeat (apply andb_prop in H as [H ?]).
  rewrite Hq1, Hq2, Hq3.
  repeat match goal with
         | Hx : ?b = true |- context [?b] => rewrite Hx
         end.
  reflexivity.
Qed.

Lemma same_origin_with_search (q : string) (loc : Location) :
  same_origin loc (with_search q loc).
Proof. repeat split. Qed.

Lemma same_origin_trans (a b c : Location) :
  same_origin a b -> same_origin b c -> same_origin a c.
Proof.
  unfold same_origin. intros (A1 & A2 & A3 & A4 & A5) (B1 & B2 & B3 & B4 & B5).
  repeat split; congruence.
Qed.

Context {QSL : QueryStringLaws QS}.

(** The browser reads an address of [createURL] as the address it was built
    at, with another query. *)
Lemma parse_url_createURL (loc : Location) (v : JsValue) (url : string) :
  wf_location loc = true ->
  createURL loc v = Normal url ->
  exists q,
    parse_url url = with_search q loc
    /\ wf_location (with_search q loc) = true
    /\ slice 1 q = (if is_empty_state v then "" else qs_stringify v).
Proof.
  intros Hwf. rewrite createURL_normal.
  destruct (is_empty_state v); intros E;
    match type of E with
    | Normal ?u = _ => assert (Eu : url = u) by congruence
    end;
    subst url; clear E.
  - exists "". split; [now apply parse_url_bare|].
    split; [now apply wf_with_search | reflexivity].
  - rewrite (parse_url_query loc _ Hwf (stringify_url_safe v)).
    eexists. split; [reflexivity|]. split; [|apply query_of_search].
    pose proof (stringify_url_safe v) as Hs.
    destruct (String.eqb_spec (qs_stringify v) "") as [E|E].
    + now apply wf_with_search.
    + apply wf_with_search; try assumption; try reflexivity.
      cbn. destruct (qs_stringify v); [contradiction | reflexivity].
Qed.

Lemma Inv_after_fire (w : Window) (m : ModernURL) :
  0 < next_timer w -> timers w = [] -> Inv (mkState w m).
Proof. intros Hn T. now apply Inv_idle. Qed.

(** X6: two writes that are [writeTimeout] apart at least push two entries,
    in the order of the calls, and the address of the second is built from
    the page address as it was, with the query of the second state alone:
    nothing of the first state stays in it. *)
Theorem writes_apart (s : State) (x1 x2 : JsValue) (d1 d2 : Z) :
  Inv s ->
  title_returns (this s) x1 = true ->
  title_returns (this s) x2 = true ->
  wf_location (location (window s)) = true ->
  writeTimeout (this s) <= d1 ->
  writeTimeout (this s) <= d2 ->
  exists s' e1 e2,
    run [OpWrite x1; OpElapse d1; OpWrite x2; OpElapse d2] s = (s', None)
    /\ entry_of x1 s = Normal e1
    /\ entry_of x2 s = Normal e2
    /\ pushed (window s') = (pushed (window s) ++ [e1; e2])%list
    /\ location (window s') = parse_url (entry_url e2).
Proof.
  intros H T1 T2 Hwf Hd1 Hd2.
  destruct (title_returns_Normal _ _ T1) as (t1 & Ht1).
  destruct (title_returns_Normal _ _ T2) as (t2 & Ht2).
  destruct (write_fired x1 s d1 t1 H Ht1 Hd1) as (u1 & Hu1 & E1).
  destruct (parse_url_createURL _ _ _ Hwf Hu1) as (q & Hq & _ & _).
  remember (mkState
              (mkWindow (parse_url u1)
                 (if has_title t1
                  then title_writes (window s) ++ [title_or_empty t1]
                  else title_writes (window s))%list
                 (pushed (window s) ++ [mkEntry x1 (title_or_empty t1) u1])
                 [] (next_timer (window s) + 1)
                 (clock (window s) + Z.max 0 d1) (listeners (window s))
                 (next_listener (window s)) (delivered (window s)))
              (set_writeTimer None (this s))) as s1 eqn:Es1.
  assert (H1 : Inv s1).
  { subst s1. apply Inv_after_fire; cbn; [|reflexivity].
    destruct H as [Hn _ _]. lia. }
  assert (F : location (window s1) = with_search q (location (window s))
              /\ pushed (window s1) =
                 (pushed (window s)
                  ++ [mkEntry x1 (title_or_empty t1) u1])%list
              /\ writeTimeout (this s1) = writeTimeout (this s)
              /\ title_of (this s1) x2 = Normal t2).
  { subst s1. cbn. rewrite Hq. repeat split. exact Ht2. }
  clear Es1. destruct F as (L1 & P1 & W1 & Tt).
  destruct (write_fired x2 s1 d2 t2 H1 Tt) as (u2 & Hu2 & E2); [lia|].
  rewrite L1, createURL_with_search in Hu2.
  change [OpWrite x1; OpElapse d1; OpWrite x2; OpElapse d2]
    with ([OpWrite x1; OpElapse d1] ++ [OpWrite x2; OpElapse d2])%list.
  rewrite (run_app_returned _ _ _ _ E1), E2.
  eexists _, _, _. split; [reflexivity|].
  unfold entry_of. rewrite Hu1, Hu2, Ht1, Ht2. cbn [bind].
  split; [reflexivity|]. split; [reflexivity|].
  cbn. rewrite P1, <- app_assoc. split; reflexivity.
Qed.

(** One step that is not a navigation leaves the page where it is, but for
    the query. *)
Lemma origin_step (op : Op) (s : State) :
  Inv s ->
  wf_location (location (window s)) = true ->
  pending_here s ->
  is_navigation op = false ->
  wf_location (location (window (fst (step op s)))) = true
  /\ pending_here (fst (step op s))
  /\ same_origin (location (window s)) (location (window (fst (step op s)))).
Proof.
  intros H Hwf Hp Hop.
  destruct op as [x | cb | | url ev | d]; cbn [step fst];
    try discriminate Hop.
  - destruct (title_returns (this s) x) eqn:T.
    + destruct (write_Inv x s H T) as (t & u & Hu & Ht & ->).
      destruct (pending_write_fields _ _ _ Ht)
        as (_ & _ & u' & title & Hu' & _ & Htask).
      cbn. split; [exact Hwf|]. split; [|repeat split].
      intros t' [<-|[]]. exists x. cbn. now rewrite Htask.
    + destruct (write_throws x s T) as (e & ->). cbn.
      split; [exact Hwf|]. split; [exact Hp | repeat split].
  - cbn. split; [exact Hwf|]. split; [exact Hp|]. repeat split.
  - destruct (title_returns (this s) JUndefined) eqn:T.
    + destruct (dispose_Inv s H T) as (t & Ht & ->).
      destruct (pending_write_fields _ _ _ Ht)
        as (_ & _ & u' & title & Hu' & _ & Htask).
      cbn. split; [exact Hwf|]. split; [|repeat split].
      intros t' [<-|[]]. exists JUndefined. cbn. now rewrite Htask.
    + destruct (dispose_throws s H T) as (e & ->). cbn.
      split; [exact Hwf|]. split; [|repeat split]. intros t' [].
  - destruct (Inv_cases s H) as [T | (t & T & Hw & Hid)].
    + rewrite (elapse_idle d s T). cbn. split; [exact Hwf|].
      split; [|repeat split]. intros t'. cbn. rewrite T. intros [].
    + destruct (Z.lt_ge_cases (clock (window s) + Z.max 0 d) (timer_due t)).
      * rewrite (elapse_waiting d s t T) by assumption. cbn.
        split; [exact Hwf|]. split; [exact Hp | repeat split].
      * rewrite (elapse_firing d s t T) by assumption.
        destruct (Hp t) as (x & Hx); [rewrite T; now left|].
        destruct (parse_url_createURL _ _ _ Hwf Hx) as (q & Hq & Hwf' & _).
        unfold run_task. cbn. rewrite Hq.
        split; [exact Hwf'|]. split; [|apply same_origin_with_search].
        intros t'. destruct (has_title _); cbn; intros [].
Qed.

(** X7: the class changes nothing of the address but the query.  From a
    well-formed address, whatever is written, disposed of or registered,
    whether the calls return or throw, and however much time goes by, the
    page keeps its protocol, host, port, path and fragment, and its address
    stays well-formed: every address pushed is one of the same page. *)
Theorem address_keeps_origin (ops : list Op) :
  forall s,
    Inv s ->
    wf_location (location (window s)) = true ->
    pending_here s ->
    forallb (fun op => negb (is_navigation op)) ops = true ->
    exists s' r,
      run ops s = (s', r)
      /\ same_origin (location (window s)) (location (window s'))
      /\ wf_location (location (window s')) = true.
Proof.
  induction ops as [|op ops IH]; intros s H Hwf Hp Hops.
  - exists s, None. split; [reflexivity|]. split; [repeat split | exact Hwf].
  - cbn [forallb] in Hops. apply andb_prop in Hops as [Hop Hops].
    apply negb_true_iff in Hop.
    destruct (origin_step op s H Hwf Hp Hop) as (Hwf1 & Hp1 & O1).
    destruct (IH _ (Inv_step op s H) Hwf1 Hp1 Hops) as (s' & r & E & O & Hwf').
    exists s', (first_error (snd (step op s)) r).
    rewrite run_cons, E. cbn [fst snd]. split; [reflexivity|].
    split; [exact (same_origin_trans _ _ _ O1 O) | exact Hwf'].
Qed.

(** X13: what a write has put in the address comes back.  A write of a
    supported state fires; when the browser later comes to the address of
    that entry with an event that carries no state, the callback gets the
    state that was written, parsed from the address. *)
Theorem restore_from_address (s : State) (uiState ev : JsValue)
  (l : Listener) (d : Z) :
  Inv s ->
  title_returns (this s) uiState = true ->
  wf_location (location (window s)) = true ->
  supported uiState = true ->
  listeners (window s) = [l] ->
  writeTimeout (this s) <= d ->
  truthy ev = false ->
  exists s1 url s2,
    run [OpWrite uiState; OpElapse d] s = (s1, None)
    /\ createURL (location (window s)) uiState = Normal url
    /\ step (OpPopState url ev) s1 = (s2, None)
    /\ delivered (window s2)
       = (delivered (window s) ++ [(listener_cb l, uiState)])%list.
Proof.
  intros H T Hwf Hs L Hd Hev.
  destruct (title_returns_Normal _ _ T) as (title & Htitle).
  destruct (write_fired uiState s d title H Htitle Hd) as (url & Hurl & E).
  pose proof (read_location_createURL _ _ _ Hwf Hs Hurl) as R.
  eexists _, url, _. split; [exact E|]. split; [exact Hurl|].
  split; [reflexivity|].
  unfold popstate.
  match goal with
  | |- context [pop_all ev ?ls ?s0] =>
      destruct (pop_all_window ev ls s0) as (ts & ->)
  end.
  cbn. rewrite L, Hev. unfold read. cbn. now rewrite R.
Qed.

(** ** History, navigation and registration *)

Lemma push_count_step (op : Op) (s : State) :
  Inv s ->
  exists new,
    pushed (window (fst (step op s))) = (pushed (window s) ++ new)%list
    /\ (List.length new + List.length (timers (window (fst (step op s))))
        <= List.length (timers (window s))
           + (if schedules op then 1 else 0))%nat.
Proof.
  intros H. pose proof (Inv_step op s H) as H'.
  destruct op as [x | cb | | url ev | d]; cbn [step schedules fst] in *.
  - destruct (title_returns (this s) x) eqn:T.
    + destruct (write_Inv x s H T) as (t & u & _ & _ & ->).
      exists []. cbn. rewrite app_nil_r. split; [reflexivity | lia].
    + destruct (write_throws x s T) as (e & ->).
      exists []. cbn. rewrite app_nil_r. split; [reflexivity | lia].
  - exists []. cbn. rewrite app_nil_r. split; [reflexivity | lia].
  - destruct (title_returns (this s) JUndefined) eqn:T.
    + destruct (dispose_Inv s H T) as (t & _ & ->).
      exists []. cbn. rewrite app_nil_r. split; [reflexivity | lia].
    + destruct (dispose_throws s H T) as (e & ->).
      exists []. cbn. rewrite app_nil_r. split; [reflexivity | lia].
  - exists [].
    set (s0 := mkState (set_location (parse_url url) (window s)) (this s))
      in *.
    assert (H0 : Inv s0).
    { destruct H as [Hn Ht Hs]. constructor; cbn; assumption. }
    destruct (Inv_pop_all ev (listeners (window s0)) s0 H0) as [_ T].
    unfold popstate in *.
    destruct (pop_all_window ev (listeners (window s0)) s0) as (ts & W).
    split; [rewrite W; cbn; now rewrite app_nil_r|].
    destruct (timers (window s)) as [|t l] eqn:Ts.
    + rewrite T; [cbn; lia | left; exact Ts].
    + destruct H' as [_ _ Hs']. cbn in *. lia.
  - destruct (Inv_cases s H) as [T | (t & T & Hw & Hid)].
    + exists []. rewrite (elapse_idle d s T). cbn. rewrite app_nil_r, T.
      split; [reflexivity | cbn; lia].
    + destruct (Z.lt_ge_cases (clock (window s) + Z.max 0 d) (timer_due t)).
      * exists []. rewrite (elapse_waiting d s t T) by assumption. cbn.
        rewrite app_nil_r, T. split; [reflexivity | cbn; lia].
      * eexists [_]. rewrite (elapse_firing d s t T) by assumption.
        unfold run_task. rewrite T.
        destruct (has_title _); cbn; (split; [reflexivity | lia]).
Qed.

(** X8: the history only grows, and by one entry per scheduling call at
    most.  In any sequence of calls and events, whether the calls return or
    throw, the entries pushed are added behind the ones there were, and they
    are no more than the calls of [write] and [dispose] in the sequence,
    plus one for a write that was pending at the start. *)
Theorem pushes_bounded (ops : list Op) :
  forall s,
    Inv s ->
    exists s' r new,
      run ops s = (s', r)
      /\ pushed (window s') = (pushed (window s) ++ new)%list
      /\ (List.length new + List.length (timers (window s'))
          <= List.length (timers (window s)) + count_scheduling ops)%nat.
Proof.
  induction ops as [|op ops IH]; intros s H.
  - exists s, None, []. rewrite app_nil_r. cbn. repeat split. lia.
  - destruct (push_count_step op s H) as (new1 & P1 & C1).
    destruct (IH _ (Inv_step op s H)) as (s' & r & new & E & P & C).
    exists s', (first_error (snd (step op s)) r), (new1 ++ new)%list.
    rewrite run_cons, E. cbn [fst snd]. split; [reflexivity|].
    split; [now rewrite P, P1, app_assoc|].
    rewrite length_app. unfold count_scheduling in *. cbn [filter].
    destruct (schedules op); cbn [List.length]; lia.
Qed.

(** X9: with a listener registered, every navigation event cancels the write
    that is pending, whether the event carries a state or not, and the
    events that follow push nothing. *)
Theorem any_navigation_cancels (s : State) (url : string) (ev : JsValue)
  (ops : list Op) :
  Inv s ->
  listeners (window s) <> [] ->
  forallb is_event ops = true ->
  exists s1 s2,
    step (OpPopState url ev) s = (s1, None)
    /\ timers (window s1) = []
    /\ pushed (window s1) = pushed (window s)
    /\ run ops s1 = (s2, None)
    /\ pushed (window s2) = pushed (window s).
Proof.
  intros H L Hev.
  set (s0 := mkState (set_location (parse_url url) (window s)) (this s)).
  assert (H0 : Inv s0).
  { destruct H as [Hn Ht Hs]. constructor; cbn; assumption. }
  destruct (Inv_pop_all ev (listeners (window s0)) s0 H0) as [H1 T1].
  assert (T : timers (window (popstate ev s0)) = []).
  { apply T1. right. exact L. }
  assert (P : pushed (window (popstate ev s0)) = pushed (window s)).
  { unfold popstate.
    destruct (pop_all_window ev (listeners (window s0)) s0) as (ts & ->).
    reflexivity. }
  destruct (idle_events ops (popstate ev s0) H1 T Hev) as (s2 & E2 & P2).
  exists (popstate ev s0), s2. split; [reflexivity|].
  split; [exact T|]. split; [exact P|]. split; [exact E2 | congruence].
Qed.

(** X10: without a listener ([onUpdate] was not called) a navigation does
    not cancel the pending write.  The timer fires when its time has come
    and pushes the address that was built at the call of [write], which
    takes the page back there; no callback is called. *)
Theorem unheard_navigation (s : State) (a ev : JsValue) (url : string)
  (d d' : Z) :
  Inv s ->
  title_returns (this s) a = true ->
  listeners (window s) = [] ->
  0 <= d < writeTimeout (this s) ->
  0 <= d' ->
  writeTimeout (this s) <= d + d' ->
  exists s' e,
    run [OpWrite a; OpElapse d; OpPopState url ev; OpElapse d'] s
    = (s', None)
    /\ entry_of a s = Normal e
    /\ pushed (window s') = (pushed (window s) ++ [e])%list
    /\ location (window s') = parse_url (entry_url e)
    /\ delivered (window s') = delivered (window s).
Proof.
  intros H T L Hd Hd' Hsum.
  destruct (write_waiting a s d H T Hd) as (t & Ht & E).
  destruct (pending_write_fields _ _ _ Ht)
    as (_ & Hdue & u & title & Hu & Htitle & Htask).
  change [OpWrite a; OpElapse d; OpPopState url ev; OpElapse d']
    with ([OpWrite a; OpElapse d] ++ [OpPopState url ev; OpElapse d'])%list.
  rewrite (run_app_returned _ _ _ _ E).
  rewrite (run_cons_returned (OpPopState url ev) _ _ _ eq_refl).
  rewrite run_elapse, run_nil.
  unfold popstate, pop_all. cbn [window listeners set_location].
  rewrite L. cbn [fold_left].
  match goal with
  | |- context [elapse d' ?s1] =>
      rewrite (elapse_firing d' s1 t eq_refl) by (cbn; lia)
  end.
  unfold entry_of. rewrite Hu, Htitle, Htask. cbn [bind].
  eexists _, _. split; [reflexivity|]. split; [reflexivity|].
  unfold run_task. destruct (has_title _); cbn; repeat split.
Qed.

(** What [dispose] leaves of the page, whether it returns or throws. *)
Lemma dispose_page (s : State) :
  Inv s ->
  listeners (window (fst (dispose s)))
  = listeners (removeEventListener (_onPopState (this s)) (window s))
  /\ delivered (window (fst (dispose s))) = delivered (window s)
  /\ location (window (fst (dispose s))) = location (window s)
  /\ pushed (window (fst (dispose s))) = pushed (window s)
  /\ clock (window (fst (dispose s))) = clock (window s)
  /\ writeTimeout (this (fst (dispose s))) = writeTimeout (this s)
  /\ titleFromUIState (this (fst (dispose s))) = titleFromUIState (this s)
  /\ (forall t, In t (timers (window (fst (dispose s)))) ->
        timer_due t = clock (window s) + Z.max 0 (writeTimeout (this s)))
  /\ (snd (dispose s) = None <-> title_returns (this s) JUndefined = true).
Proof.
  intros H.
  destruct (title_returns (this s) JUndefined) eqn:T.
  - destruct (dispose_Inv s H T) as (t & Ht & ->).
    destruct (pending_write_fields _ _ _ Ht) as (_ & Hdue & _).
    cbn. repeat split; try reflexivity.
    intros t' [<-|[]]. exact Hdue.
  - destruct (dispose_throws s H T) as (e & ->).
    cbn. repeat split; try reflexivity; try discriminate.
    intros t' [].
Qed.

(** X11: a second call of [onUpdate] adds a listener and does not replace
    the first.  After two registrations an event calls both callbacks, in
    the order of registration; [dispose] takes off the listener of the last
    registration only, so that the first callback is still called after it,
    whether [dispose] returned or threw. *)
Theorem first_registration_stays (s : State) (cb1 cb2 : nat)
  (url : string) (ev : JsValue) :
  Inv s ->
  listeners (window s) = [] ->
  exists s1 s2 s3 r,
    run [OpOnUpdate cb1; OpOnUpdate cb2] s = (s1, None)
    /\ step (OpPopState url ev) s1 = (s2, None)
    /\ delivered (window s2)
       = (delivered (window s)
          ++ [(cb1, event_value url ev); (cb2, event_value url ev)])%list
    /\ run [OpDispose; OpPopState url ev] s1 = (s3, r)
    /\ delivered (window s3)
       = (delivered (window s) ++ [(cb1, event_value url ev)])%list.
Proof.
  intros H L.
  remember (onUpdate cb2 (onUpdate cb1 s)) as s1 eqn:Es1.
  assert (H1 : Inv s1) by (subst s1; now apply Inv_onUpdate, Inv_onUpdate).
  assert (F : listeners (window s1)
              = [mkListener (next_listener (window s)) cb1;
                 mkListener (S (next_listener (window s))) cb2]
              /\ _onPopState (this s1)
                 = Some (mkListener (S (next_listener (window s))) cb2)
              /\ delivered (window s1) = delivered (window s)).
  { subst s1. cbn. now rewrite L. }
  destruct F as (L1 & O1 & D1).
  destruct (dispose_page s1 H1) as (L3 & D3 & _).
  remember (fst (dispose s1)) as sd eqn:Esd.
  exists s1. eexists. eexists. eexists.
  split; [now subst s1|]. split; [reflexivity|].
  split.
  - unfold popstate.
    match goal with
    | |- context [pop_all ev ?ls ?s0] =>
        destruct (pop_all_window ev ls s0) as (ts & ->)
    end.
    cbn. rewrite L1, D1. reflexivity.
  - rewrite run_cons. cbn [step]. rewrite <- Esd.
    rewrite (run_cons_returned (OpPopState url ev) [] _ _ eq_refl), run_nil.
    cbn [fst snd]. split; [reflexivity|].
    unfold popstate.
    match goal with
    | |- context [pop_all ev ?ls ?s0] =>
        destruct (pop_all_window ev ls s0) as (ts & ->)
    end.
    cbn. rewrite L3, D3, O1, D1. unfold removeEventListener. cbn.
    rewrite L1. cbn.
    rewrite Nat.eqb_refl.
    replace (Nat.eqb (next_listener (window s)) (S (next_listener (window s))))
      with false by (symmetry; apply Nat.eqb_neq; lia).
    reflexivity.
Qed.

(** X12: [dispose] does not shut the instance down.  Writes that follow it
    within [writeTimeout] take the place of the write it scheduled, if it
    scheduled one: whether [dispose] returned or threw, the one entry pushed
    is that of the last state written, and the page ends at the address of
    that entry. *)
Theorem writes_after_dispose (s : State) (d : Z) (x : JsValue)
  (ws : list (Z * JsValue)) (d' : Z) :
  Inv s ->
  (forall d0 x0, In (d0, x0) ((d, x) :: ws) ->
     title_returns (this s) x0 = true) ->
  (forall d0 x0, In (d0, x0) ((d, x) :: ws) ->
     0 <= d0 < writeTimeout (this s)) ->
  writeTimeout (this s) <= d' ->
  exists s' r e,
    run (OpDispose :: burst ((d, x) :: ws) ++ [OpElapse d']) s = (s', r)
    /\ (r = None <-> title_returns (this s) JUndefined = true)
    /\ entry_of (last (map snd ws) x) s = Normal e
    /\ pushed (window s') = (pushed (window s) ++ [e])%list
    /\ location (window s') = parse_url (entry_url e)
    /\ timers (window s') = [].
Proof.
  intros H HT Hd Hd'.
  pose proof (Inv_dispose s H) as H1.
  destruct (dispose_page s H) as (_ & _ & F1 & F2 & F5 & F3 & F4 & Hdue & R).
  assert (Hrange : 0 <= d < writeTimeout (this s))
    by (apply (Hd d x); now left).
  remember (fst (dispose s)) as s1 eqn:Es1.
  pose proof (Inv_elapse d s1 H1) as H2.
  assert (F : location (window (elapse d s1)) = location (window s)
              /\ pushed (window (elapse d s1)) = pushed (window s)
              /\ writeTimeout (this (elapse d s1)) = writeTimeout (this s)
              /\ titleFromUIState (this (elapse d s1))
                 = titleFromUIState (this s)).
  { destruct (Inv_cases s1 H1) as [T | (t & T & _)].
    - rewrite (elapse_idle d s1 T). cbn. auto.
    - assert (C : clock (window s1) + Z.max 0 d < timer_due t).
      { rewrite (Hdue t) by (rewrite T; now left). lia. }
      rewrite (elapse_waiting d s1 t T C). cbn. auto. }
  remember (elapse d s1) as s2 eqn:Es2.
  destruct F as (G1 & G2 & G3 & G4).
  assert (TR : forall v, title_returns (this s2) v = title_returns (this s) v).
  { intros v. unfold title_returns, title_of. now rewrite G4. }
  destruct (run_burst ws x s2 H2)
    as (s3 & t3 & u3 & title3 & E3 & H3 & Hsame & T3 & Hdue3 & Hu3 & Htitle3
        & Htask3).
  { rewrite TR. apply (HT d x). now left. }
  { intros d0 x0 Hin. rewrite TR. apply (HT d0 x0). now right. }
  { intros d0 x0 Hin. rewrite G3. apply (Hd d0 x0). now right. }
  destruct Hsame as (_ & _ & P3 & _).
  change (OpDispose :: burst ((d, x) :: ws) ++ [OpElapse d'])
    with (OpDispose :: OpElapse d
          :: (OpWrite x :: burst ws) ++ [OpElapse d'])%list.
  rewrite run_cons. cbn [step]. rewrite <- Es1.
  rewrite run_elapse, <- Es2.
  rewrite (run_app_returned _ _ _ _ E3), run_elapse, run_nil.
  cbn [fst snd].
  rewrite (elapse_firing d' s3 t3 T3) by lia.
  unfold entry_of. rewrite <- G1, Hu3.
  replace (title_of (this s) (last (map snd ws) x)) with (Normal title3).
  2:{ rewrite <- Htitle3. unfold title_of. now rewrite G4. }
  cbn [bind].
  eexists _, _, _. split; [reflexivity|].
  split; [destruct (snd (dispose s)); exact R|]. split; [reflexivity|].
  rewrite Htask3.
  unfold run_task; destruct (has_title _); cbn; now rewrite P3, G2.
Qed.

End Beyond.

(** ** More theorems on the example page *)

Module MoreWitnesses.
Import Examples MoreExamples.

Lemma Inv_plain : Inv plain.
Proof. constructor; cbn; [lia | intros t [] | lia]. Qed.

Lemma Inv_reading : Inv reading.
Proof. constructor; cbn; [lia | intros t [] | lia]. Qed.

Lemma Inv_writing : Inv writing.
Proof.
  exact (Inv_run (QS := RefCodec.ref_qs) _ _ Witnesses.Inv_started).
Qed.

Lemma write_fires_at_timeout_shop :
  exists s' e,
    run (QS := RefCodec.ref_qs) [OpWrite phones; OpElapse 399] started
    = (s', None)
    /\ entry_of (QS := RefCodec.ref_qs) phones started = Normal e
    /\ pushed (window s') = []
    /\ List.length (timers (window s')) = 1%nat.
Proof.
  apply (@write_fires_at_timeout RefCodec.ref_qs phones started 399).
  - exact Witnesses.Inv_started.
  - reflexivity.
  - lia.
Defined.

Lemma constructor_delay_shop :
  exists s' e,
    run (QS := RefCodec.ref_qs) [OpWrite phones; OpElapse 400]
      (initial (Some query_title) None shop) = (s', None)
    /\ entry_of (QS := RefCodec.ref_qs) phones
         (initial (Some query_title) None shop) = Normal e
    /\ pushed (window s') = [e].
Proof.
  apply (@constructor_delay RefCodec.ref_qs (Some query_title) None shop
           phones 400).
  - reflexivity.
  - lia.
Defined.

Lemma untitled_write_shop :
  exists s' url,
    run (QS := RefCodec.ref_qs) [OpWrite tablets; OpElapse 400] plain
    = (s', None)
    /\ createURL (QS := RefCodec.ref_qs) (location (window plain)) tablets
       = Normal url
    /\ title_writes (window s') = []
    /\ pushed (window s') = [mkEntry tablets "" url].
Proof.
  apply (@untitled_write RefCodec.ref_qs tablets plain 400 None).
  - exact Inv_plain.
  - reflexivity.
  - reflexivity.
  - cbn. lia.
Defined.

Lemma writes_apart_shop :
  exists s' e1 e2,
    run (QS := RefCodec.ref_qs)
      [OpWrite phones; OpElapse 400; OpWrite tablets; OpElapse 400] started
    = (s', None)
    /\ entry_of (QS := RefCodec.ref_qs) phones started = Normal e1
    /\ entry_of (QS := RefCodec.ref_qs) tablets started = Normal e2
    /\ pushed (window s') = [e1; e2]
    /\ location (window s') = parse_url (entry_url e2).
Proof.
  apply (@writes_apart RefCodec.ref_qs RefCodecFacts.ref_qs_laws started
           phones tablets 400 400).
  - exact Witnesses.Inv_started.
  - reflexivity.
  - reflexivity.
  - reflexivity.
  - cbn. lia.
  - cbn. lia.
Defined.

Lemma address_keeps_origin_shop :
  exists s' r,
    run (QS := RefCodec.ref_qs) session plain = (s', r)
    /\ same_origin shop (location (window s'))
    /\ wf_location (location (window s')) = true.
Proof.
  apply (@address_keeps_origin RefCodec.ref_qs RefCodecFacts.ref_qs_laws
           session plain).
  - exact Inv_plain.
  - reflexivity.
  - intros t [].
  - reflexivity.
Defined.

Lemma pushes_bounded_shop :
  exists s' r new,
    run (QS := RefCodec.ref_qs) session plain = (s', r)
    /\ pushed (window s') = new
    /\ (List.length new + List.length (timers (window s')) <= 3)%nat.
Proof.
  apply (@pushes_bounded RefCodec.ref_qs session plain).
  exact Inv_plain.
Defined.

Lemma any_navigation_cancels_shop :
  List.length (timers (window writing)) = 1%nat
  /\ exists s1 s2,
       step (QS := RefCodec.ref_qs) (OpPopState tablets_url JNull) writing
       = (s1, None)
       /\ timers (window s1) = []
       /\ pushed (window s1) = []
       /\ run (QS := RefCodec.ref_qs) [OpElapse 1000] s1 = (s2, None)
       /\ pushed (window s2) = [].
Proof.
  split; [reflexivity|].
  apply (@any_navigation_cancels RefCodec.ref_qs writing tablets_url JNull
           [OpElapse 1000]).
  - exact Inv_writing.
  - discriminate.
  - reflexivity.
Defined.

Lemma unheard_navigation_shop :
  exists s' e,
    run (QS := RefCodec.ref_qs)
      [OpWrite phones; OpElapse 100; OpPopState tablets_url tablets;
       OpElapse 300] plain
    = (s', None)
    /\ entry_of (QS := RefCodec.ref_qs) phones plain = Normal e
    /\ pushed (window s') = [e]
    /\ location (window s') = parse_url (entry_url e)
    /\ delivered (window s') = [].
Proof.
  apply (@unheard_navigation RefCodec.ref_qs plain phones tablets
           tablets_url 100 300).
  - exact Inv_plain.
  - reflexivity.
  - reflexivity.
  - cbn. lia.
  - lia.
  - cbn. lia.
Defined.

Lemma first_registration_stays_shop :
  exists s1 s2 s3 r,
    run (QS := RefCodec.ref_qs) [OpOnUpdate 1; OpOnUpdate 2] plain
    = (s1, None)
    /\ step (QS := RefCodec.ref_qs) (OpPopState tablets_url tablets) s1
       = (s2, None)
    /\ delivered (window s2) = [(1%nat, tablets); (2%nat, tablets)]
    /\ run (QS := RefCodec.ref_qs)
         [OpDispose; OpPopState tablets_url tablets] s1 = (s3, r)
    /\ delivered (window s3) = [(1%nat, tablets)].
Proof.
  apply (@first_registration_stays RefCodec.ref_qs plain 1%nat 2%nat
           tablets_url tablets).
  - exact Inv_plain.
  - reflexivity.
Defined.

Lemma writes_after_dispose_shop :
  exists s' r e,
    run (QS := RefCodec.ref_qs)
      [OpDispose; OpElapse 100; OpWrite phones; OpElapse 100;
       OpWrite tablets; OpElapse 400] reading
    = (s', r)
    /\ (r = None <-> title_returns (this reading) JUndefined = true)
    /\ entry_of (QS := RefCodec.ref_qs) tablets reading = Normal e
    /\ pushed (window s') = [e]
    /\ location (window s') = parse_url (entry_url e)
    /\ timers (window s') = [].
Proof.
  apply (@writes_after_dispose RefCodec.ref_qs reading 100 phones
           [(100, tablets)] 400).
  - exact Inv_reading.
  - intros d0 x0 [E|[E|[]]]; inversion E; subst; reflexivity.
  - intros d0 x0 [E|[E|[]]]; inversion E; subst; cbn; lia.
  - cbn. lia.
Defined.

Lemma restore_from_address_shop :
  exists s1 url s2,
    run (QS := RefCodec.ref_qs) [OpWrite phones; OpElapse 400] started
    = (s1, None)
    /\ createURL (QS := RefCodec.ref_qs) (location (window started)) phones
       = Normal url
    /\ step (QS := RefCodec.ref_qs) (OpPopState url JNull) s1 = (s2, None)
    /\ delivered (window s2) = [(7%nat, phones)].
Proof.
  apply (@restore_from_address RefCodec.ref_qs RefCodecFacts.ref_qs_laws
           started phones JNull (mkListener 0 7) 400).
  - exact Witnesses.Inv_started.
  - reflexivity.
  - reflexivity.
  - reflexivity.
  - reflexivity.
  - cbn. lia.
  - reflexivity.
Defined.

End MoreWitnesses.
